(** * notification-agent: the instruction-to-plan compiler and the executor

    A shallow embedding of [agent.py]: the function [mock_llm_reason]
    (regular-expression parse of the instruction, provider label table,
    the five abstract steps, the label check against the page HTML) and
    the class [GenericUIAgent] ([__init__] and [execute]), followed by the
    properties of the design document that were checked against them.

    Python [str] values are modelled by [string]; a character is a code
    point in the range U+0000..U+00FF, on which [str.lower] and the [re]
    class [\w] are given by the tables below. *)

From Stdlib Require Import Ascii String List ZArith NArith Lia Bool.
From stdpp Require Import base option list gmap strings.

(** ** Characters *)

Module Char.

Definition code (c : ascii) : N := N_of_ascii c.

Definition between (lo hi : N) (c : ascii) : bool :=
  ((lo <=? code c) && (code c <=? hi))%N.

(** Code points whose [str.lower()] differs from themselves: A-Z and the
    Latin-1 capitals U+00C0..U+00DE except the multiplication sign. *)
Definition is_upper (c : ascii) : bool :=
  between 65 90 c || (between 192 222 c && negb (code c =? 215)%N).

Definition lower (c : ascii) : ascii :=
  if is_upper c then ascii_of_N (code c + 32) else c.

(** [\w] of a [str] pattern: alphanumeric code points and the underscore. *)
Definition is_word (c : ascii) : bool :=
  between 48 57 c || between 65 90 c || between 97 122 c || (code c =? 95)%N
  || (code c =? 170)%N || between 178 179 c || (code c =? 181)%N
  || between 185 186 c || between 188 190 c
  || between 192 214 c || between 216 246 c || between 248 255 c.

Definition newline : ascii := ascii_of_N 10.
Definition quote : ascii := ascii_of_N 39.

End Char.

(** [str.lower()] *)
Fixpoint lower (s : string) : string :=
  match s with
  | EmptyString => EmptyString
  | String c s' => String (Char.lower c) (lower s')
  end.

(** ** The [re] engine on the operations the pattern uses

    The compiled form of a pattern is a sequence of operations as in
    [sre]: single-character atoms, greedy repetition of an atom with a
    lower bound, and group marks.  [re.match] anchors at the start of the
    subject and explores alternatives by backtracking, longest repetition
    first. *)

Module Re.

Inductive set_item : Type :=
  | CATEGORY_WORD
  | SET_LITERAL (c : ascii).

Inductive atom : Type :=
  | LITERAL (c : ascii)
  | ANY                          (* [.]: anything but a newline *)
  | IN (items : list set_item).  (* a bracketed set *)

Inductive op : Type :=
  | AT (a : atom)
  | MAX_REPEAT (min : nat) (a : atom)   (* [a+] is min 1, [a*] is min 0 *)
  | MARK (i : nat).

Definition item_accepts (it : set_item) (c : ascii) : bool :=
  match it with
  | CATEGORY_WORD => Char.is_word c
  | SET_LITERAL d => Ascii.eqb c d
  end.

Definition accepts (a : atom) (c : ascii) : bool :=
  match a with
  | LITERAL d => Ascii.eqb c d
  | ANY => negb (Ascii.eqb c Char.newline)
  | IN items => existsb (fun it => item_accepts it c) items
  end.

(** Number of leading characters of [s] the atom accepts. *)
Fixpoint span (a : atom) (s : list ascii) : nat :=
  match s with
  | c :: s' => if accepts a c then S (span a s') else 0
  | [] => 0
  end.

(** A mark is a pointer into the subject; it is represented by the
    suffix of the subject that starts there. *)
Definition marks : Type := list (nat * list ascii).

(** Try the continuation after [i], [i-1], ..., [min] repetitions. *)
Fixpoint greedy {R : Type} (k : nat -> option R) (min i : nat) : option R :=
  if Nat.ltb i min then None
  else match k i with
       | Some r => Some r
       | None => match i with
                 | O => None
                 | S j => greedy k min j
                 end
       end.

Fixpoint run (ops : list op) (s : list ascii) (m : marks)
  : option (marks * list ascii) :=
  match ops with
  | [] => Some (m, s)
  | AT a :: ops' =>
      match s with
      | c :: s' => if accepts a c then run ops' s' m else None
      | [] => None
      end
  | MAX_REPEAT min a :: ops' =>
      greedy (fun i => run ops' (drop i s) m) min (span a s)
  | MARK i :: ops' => run ops' s ((i, s) :: m)
  end.

Definition mark_at (m : marks) (i : nat) : option (list ascii) :=
  snd <$> List.find (fun p => Nat.eqb (fst p) i) m.

(** [match.group(g)] for [g >= 1]: the text between marks [2(g-1)] and
    [2(g-1)+1].  Every group of the pattern below takes part in every
    match (see [PatternFacts.run_PATTERN_inv]), so the value [None] of a group that
    did not participate never arises and is rendered as the empty text. *)
Definition group (m : marks) (g : nat) : list ascii :=
  match mark_at m (2 * (g - 1)), mark_at m (2 * (g - 1) + 1) with
  | Some start, Some stop => take (length start - length stop) start
  | _, _ => []
  end.

(** [re.match(pattern, string)]: the marks of the first successful path. *)
Definition re_match (ops : list op) (subject : string) : option marks :=
  fst <$> run ops (list_ascii_of_string subject) [].

Definition literal (s : string) : list op :=
  map (fun c => AT (LITERAL c)) (list_ascii_of_string s).

Definition capture (g : nat) (ops : list op) : list op :=
  MARK (2 * (g - 1)) :: ops ++ [MARK (2 * (g - 1) + 1)].

End Re.

(** ** Results and exceptions *)

Inductive exn : Type :=
  | ValueError (msg : string)
  | KeyError (key : string)
  | TimeoutError                  (* playwright.sync_api.TimeoutError *)
  | Error (msg : string).         (* any other exception of the driver *)

Inductive res (A : Type) : Type :=
  | Ok (a : A)
  | Raise (e : exn).
Arguments Ok {A} a.
Arguments Raise {A} e.

(** ** The instruction grammar (agent.py, lines 19-27) *)

(** The bracketed set of the address: a word character, a dot or a hyphen. *)
Definition address_set : Re.atom :=
  Re.IN [Re.CATEGORY_WORD; Re.SET_LITERAL "."; Re.SET_LITERAL "-"].

(** The pattern of line 20: the words [send email to ], group 1 (one or
    more address characters, an at sign, one or more address characters),
    the word [ about ], group 2 (any run of [.], possibly empty), the
    words [ saying ] and an opening quote, group 3 (a non-empty run of
    [.]) and a closing quote. *)
Definition PATTERN : list Re.op :=
  Re.literal "send email to "
  ++ Re.capture 1 [Re.MAX_REPEAT 1 address_set; Re.AT (Re.LITERAL "@");
                   Re.MAX_REPEAT 1 address_set]
  ++ Re.literal " about "
  ++ Re.capture 2 [Re.MAX_REPEAT 0 Re.ANY]
  ++ Re.literal " saying '"
  ++ Re.capture 3 [Re.MAX_REPEAT 1 Re.ANY]
  ++ Re.literal "'".

Definition INVALID_FORMAT : string :=
  "Invalid instruction format. Use: send email to email about subject saying 'body'".

(** The parsing stage of [mock_llm_reason]: [re.match] on the lowercased
    instruction, the format error when there is no match, else
    [match.groups()]. *)
Definition parse (instruction : string) : res (string * string * string) :=
  match Re.re_match PATTERN (lower instruction) with
  | None => Raise (ValueError INVALID_FORMAT)
  | Some m =>
      Ok (string_of_list_ascii (Re.group m 1),
          string_of_list_ascii (Re.group m 2),
          string_of_list_ascii (Re.group m 3))
  end.

(** ** Steps, driver calls and the trace *)

(** A step is the tuple [(action_type, params_dict)]. *)
Definition step : Type := string * gmap string string.

(** Locators are built with [exact=False]. *)
Inductive locator : Type :=
  | ByRole (role name : string)
  | ByLabel (label : string).

Inductive call : Type :=
  | Start                                   (* entering [sync_playwright()] *)
  | Launch (headless : bool)
  | NewPage
  | Goto (url : string)
  | WaitForLoadState (state : string)
  | Content
  | GetByRole (role name : string)
  | GetByLabel (label : string)
  | WaitFor (l : locator) (state : string) (timeout : Z)
  | Click (l : locator)
  | Fill (l : locator) (value : string)
  | WaitForTimeout (ms : Z)
  | Screenshot (path : string)
  | Close
  | Stop.                                   (* leaving [sync_playwright()] *)

Inductive level : Type := INFO | WARNING | ERROR.

(** A log message: a text, or a text followed by the [repr] of a dict. *)
Inductive message : Type :=
  | Text (s : string)
  | TextRepr (s : string) (d : gmap string string).

Inductive event : Type :=
  | Call (c : call)
  | Log (lvl : level) (msg : message).

Definition trace : Type := list event.

(** The browser behind the driver: whether a call raises, and what the
    page contains, both as functions of everything done so far. *)
Record Session : Type := {
  fails : trace -> call -> option exn;
  content : trace -> string;
}.

(** Computations that may raise and that extend the trace. *)
Definition M (A : Type) : Type := trace -> res A * trace.

Definition ret {A} (a : A) : M A := fun t => (Ok a, t).
Definition raise {A} (e : exn) : M A := fun t => (Raise e, t).
Definition bind {A B} (m : M A) (f : A -> M B) : M B :=
  fun t => match m t with
           | (Ok a, t') => f a t'
           | (Raise e, t') => (Raise e, t')
           end.

Notation "x <~ m ;; k" := (bind m (fun x => k))
  (at level 100, m at next level, right associativity).
Notation "m ;;; k" := (bind m (fun _ => k))
  (at level 100, right associativity).

Definition lift {A} (r : res A) : M A := fun t => (r, t).

Definition perform (s : Session) (c : call) : M unit :=
  fun t => match fails s t c with
           | None => (Ok tt, t ++ [Call c])
           | Some e => (Raise e, t ++ [Call c])
           end.

Definition page_content (s : Session) : M string :=
  fun t => match fails s t Content with
           | None => (Ok (content s t), t ++ [Call Content])
           | Some e => (Raise e, t ++ [Call Content])
           end.

Definition log (lvl : level) (msg : message) : M unit :=
  fun t => (Ok tt, t ++ [Log lvl msg]).

(** [d[k]] *)
Definition getitem (d : gmap string string) (k : string) : M string :=
  match d !! k with
  | Some v => ret v
  | None => raise (KeyError k)
  end.

(** [try: body / except TimeoutError: handler] *)
Definition try_except_timeout {A} (body handler : M A) : M A :=
  fun t => match body t with
           | (Raise TimeoutError, t') => handler t'
           | r => r
           end.

(** [with sync_playwright() as p: body] *)
Definition with_playwright {A} (s : Session) (body : M A) : M A :=
  perform s Start ;;;
  fun t => let '(r, t') := body t in
           match perform s Stop t' with
           | (Ok _, t'') => (r, t'')
           | (Raise e, t'') => (Raise e, t'')
           end.

(** [needle in s] *)
Fixpoint contains (s needle : string) : bool :=
  String.prefix needle s
  || match s with
     | EmptyString => false
     | String _ s' => contains s' needle
     end.

(** ** mock_llm_reason (agent.py, lines 12-69) *)

Definition LABELS : gmap string (gmap string string) :=
  {[ "gmail" := {[ "compose_button" := "Compose";
                   "to_label" := "To";
                   "subject_label" := "Subject";
                   "body_label" := "Message Body";
                   "send_button" := "Send" ]};
     "outlook" := {[ "compose_button" := "New message";
                     "to_label" := "To";
                     "subject_label" := "Add a subject";
                     "body_label" := "Message body";
                     "send_button" := "Send" ]} ]}.

(** The list literal of lines 51-57; the five subscripts of [labels]
    are evaluated in the order of the literal. *)
Definition build_steps (labels : gmap string string)
    (to_email subject body : string) : M (list step) :=
  compose <~ getitem labels "compose_button" ;;
  to_label <~ getitem labels "to_label" ;;
  subject_label <~ getitem labels "subject_label" ;;
  body_label <~ getitem labels "body_label" ;;
  send <~ getitem labels "send_button" ;;
  ret [ ("click_button", {[ "name" := compose; "role" := "button" ]});
        ("fill_input", {[ "label" := to_label; "value" := to_email ]});
        ("fill_input", {[ "label" := subject_label; "value" := subject ]});
        ("fill_input", {[ "label" := body_label; "value" := body ]});
        ("click_button", {[ "name" := send; "role" := "button" ]}) ].

(** The loop of lines 60-67.  For a step that has a [label] entry the
    condition subscripts [labels] with the lowercased label text. *)
Fixpoint check_labels (labels : gmap string string) (html_content : string)
    (steps : list step) : M unit :=
  match steps with
  | [] => ret tt
  | (_, params) :: rest =>
      match params !! "label" with
      | None => ret tt
      | Some label =>
          expected <~ getitem labels (lower label) ;;
          if contains (lower html_content) expected then ret tt
          else log WARNING
                 (Text ("Label " +:+ label +:+ " not found in HTML, may need adjustment"))
      end ;;;
      check_labels labels html_content rest
  end.

Definition mock_llm_reason (instruction html_content provider : string)
  : M (list step) :=
  groups <~ lift (parse instruction) ;;
  let '(to_email, subject, body) := groups in
  let labels := default ∅ (LABELS !! provider) in
  if decide (labels = ∅) then raise (ValueError "Unsupported provider")
  else
    steps <~ build_steps labels to_email subject body ;;
    check_labels labels html_content steps ;;;
    ret steps.

(** ** GenericUIAgent (agent.py, lines 72-131) *)

Record GenericUIAgent : Type := {
  provider : string;
  url : string;
}.

Definition URLS : gmap string string :=
  {[ "gmail" := "https://mail.google.com";
     "outlook" := "https://outlook.live.com/mail/" ]}.

(** [GenericUIAgent(provider)] *)
Definition __init__ (provider : string) : M GenericUIAgent :=
  match URLS !! provider with
  | Some u =>
      if String.eqb u "" then raise (ValueError "Unsupported provider")
      else ret {| provider := provider; url := u |}
  | None => raise (ValueError "Unsupported provider")
  end.

Section Executor.

Variable s : Session.
Variable self : GenericUIAgent.

(** The body of the [for] loop, lines 108-128. *)
Definition execute_step (st : step) : M unit :=
  let '(action, params) := st in
  try_except_timeout
    ((if String.eqb action "click_button" then
        role <~ getitem params "role" ;;
        name <~ getitem params "name" ;;
        perform s (GetByRole role name) ;;;
        perform s (WaitFor (ByRole role name) "visible" 5000) ;;;
        perform s (Click (ByRole role name)) ;;;
        shown <~ getitem params "name" ;;
        log INFO (Text ("Clicked button: " +:+ shown))
      else if String.eqb action "fill_input" then
        label <~ getitem params "label" ;;
        perform s (GetByLabel label) ;;;
        perform s (WaitFor (ByLabel label) "visible" 5000) ;;;
        value <~ getitem params "value" ;;
        perform s (Fill (ByLabel label) value) ;;;
        shown <~ getitem params "label" ;;
        filled <~ getitem params "value" ;;
        log INFO (Text ("Filled input " +:+ shown +:+ " with " +:+ filled))
      else ret tt) ;;;
     perform s (WaitForTimeout 2000))
    (log ERROR (TextRepr "Timeout waiting for element: " params) ;;;
     perform s (Screenshot ("error_" +:+ provider self +:+ ".png")) ;;;
     raise TimeoutError).

(** The [for] loop over the steps, lines 107-128. *)
Fixpoint execute_steps (steps : list step) : M unit :=
  match steps with
  | [] => ret tt
  | st :: rest => execute_step st ;;; execute_steps rest
  end.

(** [GenericUIAgent.execute], lines 83-131. *)
Definition execute (instruction : string) : M unit :=
  with_playwright s
    (perform s (Launch false) ;;;
     perform s NewPage ;;;
     perform s (Goto (url self)) ;;;
     log INFO (Text ("Navigated to " +:+ provider self +:+ " at " +:+ url self)) ;;;
     perform s (WaitForLoadState "networkidle") ;;;
     html <~ page_content s ;;
     steps <~ mock_llm_reason instruction (lower html) (provider self) ;;
     execute_steps steps ;;;
     log INFO (Text "Task completed successfully") ;;;
     perform s Close).

End Executor.

(** ** The grammar, read off the pattern *)

Abbreviation chars := list_ascii_of_string.

Definition address_char (c : ascii) : bool := Re.accepts address_set c.
Definition not_newline (c : ascii) : bool := negb (Ascii.eqb c Char.newline).
Definition not_quote (c : ascii) : bool := negb (Ascii.eqb c Char.quote).

(** One or more address characters, an at sign, one or more address
    characters. *)
Definition address_shape (a : list ascii) : Prop :=
  exists l d, a = l ++ "@"%char :: d
              /\ l <> [] /\ forallb address_char l = true
              /\ d <> [] /\ forallb address_char d = true.

(** The text of an instruction with the given recipient, subject and body. *)
Definition instruction_text (a subject body : list ascii) : list ascii :=
  chars "send email to " ++ a ++ chars " about " ++ subject
  ++ chars " saying '" ++ body ++ chars "'".

(** [s] starts with a text of the grammar. *)
Definition grammar_prefix (s : list ascii) : Prop :=
  exists a subject body rest,
    s = instruction_text a subject body ++ rest
    /\ address_shape a
    /\ forallb not_newline subject = true
    /\ body <> [] /\ forallb not_newline body = true.

(** The pattern from the end of each group on. *)
Definition tail3 : list Re.op := Re.capture 3 [Re.MAX_REPEAT 1 Re.ANY] ++ Re.literal "'".
Definition tail2 : list Re.op :=
  Re.capture 2 [Re.MAX_REPEAT 0 Re.ANY] ++ Re.literal " saying '" ++ tail3.
Definition tail1 : list Re.op :=
  Re.capture 1 [Re.MAX_REPEAT 1 address_set; Re.AT (Re.LITERAL "@"); Re.MAX_REPEAT 1 address_set]
  ++ Re.literal " about " ++ tail2.

(** ** Sessions and plans used in the examples *)

Definition ok_session : Session :=
  {| fails := fun _ _ => None; content := fun _ => "<html>To Subject</html>" |}.

Definition gmail_agent : GenericUIAgent :=
  {| provider := "gmail"; url := "https://mail.google.com" |}.

(** The subject field never becomes visible. *)
Definition hidden_subject_session : Session :=
  {| fails := fun _ c =>
       match c with
       | WaitFor (ByLabel "Subject") _ _ => Some TimeoutError
       | _ => None
       end;
     content := fun _ => "" |}.

(** The compose button never becomes visible and the screenshot fails. *)
Definition failing_capture_session : Session :=
  {| fails := fun _ c =>
       match c with
       | WaitFor _ _ _ => Some TimeoutError
       | Screenshot _ => Some (Error "screenshot failed")
       | _ => None
       end;
     content := fun _ => "" |}.

Definition gmail_plan (to_email subject body : string) : list step :=
  [ ("click_button", {[ "name" := "Compose"; "role" := "button" ]});
    ("fill_input", {[ "label" := "To"; "value" := to_email ]});
    ("fill_input", {[ "label" := "Subject"; "value" := subject ]});
    ("fill_input", {[ "label" := "Message Body"; "value" := body ]});
    ("click_button", {[ "name" := "Send"; "role" := "button" ]}) ].

Definition outlook_plan (to_email subject body : string) : list step :=
  [ ("click_button", {[ "name" := "New message"; "role" := "button" ]});
    ("fill_input", {[ "label" := "To"; "value" := to_email ]});
    ("fill_input", {[ "label" := "Add a subject"; "value" := subject ]});
    ("fill_input", {[ "label" := "Message body"; "value" := body ]});
    ("click_button", {[ "name" := "Send"; "role" := "button" ]}) ].

(** ** What the executor is expected to do with a step *)

(** The element a step addresses: the call that resolves it and the
    locator it yields. *)
Definition target (st : step) : option (call * locator) :=
  let '(action, params) := st in
  if String.eqb action "click_button" then
    match params !! "role", params !! "name" with
    | Some role, Some name => Some (GetByRole role name, ByRole role name)
    | _, _ => None
    end
  else if String.eqb action "fill_input" then
    match params !! "label" with
    | Some label => Some (GetByLabel label, ByLabel label)
    | None => None
    end
  else None.

(** The operations of one step that succeeds: resolve, wait until
    visible, interact, log, settle. *)
Definition step_events (st : step) : option (list event) :=
  let '(action, params) := st in
  if String.eqb action "click_button" then
    match params !! "role", params !! "name" with
    | Some role, Some name =>
        Some [Call (GetByRole role name);
              Call (WaitFor (ByRole role name) "visible" 5000);
              Call (Click (ByRole role name));
              Log INFO (Text ("Clicked button: " +:+ name));
              Call (WaitForTimeout 2000)]
    | _, _ => None
    end
  else if String.eqb action "fill_input" then
    match params !! "label", params !! "value" with
    | Some label, Some value =>
        Some [Call (GetByLabel label);
              Call (WaitFor (ByLabel label) "visible" 5000);
              Call (Fill (ByLabel label) value);
              Log INFO (Text ("Filled input " +:+ label +:+ " with " +:+ value));
              Call (WaitForTimeout 2000)]
    | _, _ => None
    end
  else Some [Call (WaitForTimeout 2000)].

(** The operations of a plan whose steps all succeed: the blocks of its
    steps, one after the other, in the order of the plan. *)
Fixpoint plan_events (plan : list step) : option (list event) :=
  match plan with
  | [] => Some []
  | st :: rest =>
      match step_events st, plan_events rest with
      | Some block, Some blocks => Some (block ++ blocks)
      | _, _ => None
      end
  end.

(** Calls that look up or touch an element of the page. *)
Definition touches_element (ev : event) : bool :=
  match ev with
  | Call (GetByRole _ _) | Call (GetByLabel _) | Call (WaitFor _ _ _)
  | Call (Click _) | Call (Fill _ _) => true
  | _ => false
  end.

(** The operations of [execute] up to the call of [mock_llm_reason],
    followed by the exit of the [with] block. *)
Definition setup_events (self : GenericUIAgent) : list event :=
  [Call Start; Call (Launch false); Call NewPage; Call (Goto (url self));
   Log INFO (Text ("Navigated to " +:+ provider self +:+ " at " +:+ url self));
   Call (WaitForLoadState "networkidle"); Call Content; Call Stop].

(** A computation whose result and whose log records do not depend on
    the trace it starts from. *)
Definition stateless {A} (m : M A) : Prop :=
  exists r logs, forall t, m t = (r, t ++ logs).

(** The path of the screenshot taken on a timeout. *)
Definition screenshot_path (self : GenericUIAgent) : string :=
  "error_" +:+ provider self +:+ ".png".

(** A session in which no call raises. *)
Definition cooperative (s : Session) : Prop := forall h c, fails s h c = None.

(** ** The command line (agent.py, lines 135-148) *)

(** How the script ends: [sys.exit(code)], an exception that nothing
    catches, or the end of the script. *)
Inductive cli_result : Type :=
  | SystemExit (code : Z)
  | Uncaught (e : exn)
  | Finished.

Definition DQUOTE : string := String (ascii_of_N 34) EmptyString.

Definition USAGE : string :=
  "Usage: python agent.py " +:+ DQUOTE
  +:+ "send email to joe@example.com about Meeting saying 'Hello from automation'"
  +:+ DQUOTE +:+ " --provider gmail".

(** The script run with [sys.argv = argv]: the result, the lines
    printed, and the trace.  The subscripts [1] and [3] are guarded by the
    tests on the length. *)
Definition main (s : Session) (argv : list string)
  : trace -> cli_result * list string * trace :=
  fun t =>
    if length argv <? 3 then (SystemExit 1, [USAGE], t)
    else
      let instruction := nth 1 argv ""%string in
      let provider := if 3 <? length argv then nth 3 argv ""%string
                      else "gmail"%string in
      match (agent <~ __init__ provider ;; execute s agent instruction) t with
      | (Ok _, t') => (Finished, [], t')
      | (Raise e, t') => (Uncaught e, [], t')
      end.

(** Events used to state what the executor does not do. *)
Definition is_close (ev : event) : bool :=
  match ev with Call Close => true | _ => false end.

Definition is_screenshot (ev : event) : bool :=
  match ev with Call (Screenshot _) => true | _ => false end.

Definition is_error_log (ev : event) : bool :=
  match ev with Log ERROR _ => true | _ => false end.

(** A session in which no call raises the timeout. *)
Definition never_times_out (s : Session) : Prop :=
  forall h c, fails s h c <> Some TimeoutError.

(** A session that raises on a click, with an error other than the timeout. *)
Definition click_rejected_session : Session :=
  {| fails := fun _ c =>
       match c with
       | Click _ => Some (Error "element detached")
       | _ => None
       end;
     content := fun _ => "" |}.

(** A character that no operation of a pattern accepts. *)
Definition rejected_by (c : ascii) (o : Re.op) : Prop :=
  match o with
  | Re.AT a | Re.MAX_REPEAT _ a => Re.accepts a c = false
  | Re.MARK _ => True
  end.

(** The marks of a subject, read as marks of the subject followed by [tl]. *)
Definition extend_marks (tl : list ascii) (m : Re.marks) : Re.marks :=
  map (fun p => (fst p, snd p ++ tl)) m.

(** The exception [mock_llm_reason] ends with, read off its three exits
    in the order the code reaches them. *)
Definition compile_error (instruction provider : string) : exn :=
  match parse instruction with
  | Raise e => e
  | Ok _ =>
      if String.eqb provider "gmail" || String.eqb provider "outlook"
      then KeyError "to"
      else ValueError "Unsupported provider"
  end.

(** ** Properties of the [re] engine *)

Module ReFacts.
Import Re.

Section Greedy.
Context {R : Type}.
Implicit Types (k : nat -> option R) (min n i : nat).

Lemma greedy_None k min n :
  greedy k min n = None -> forall i, min <= i <= n -> k i = None.
Proof.
  induction n as [|n IH]; simpl.
  - destruct (Nat.ltb_spec 0 min) as [Hlt|Hge]; intros Hg i Hi; [lia|].
    assert (i = 0) by lia; subst. destruct (k 0); congruence.
  - destruct (Nat.ltb_spec (S n) min) as [Hlt|Hge]; intros Hg i Hi; [lia|].
    destruct (k (S n)) eqn:E; [congruence|].
    destruct (Nat.eq_dec i (S n)) as [->|Hne]; [exact E|].
    apply IH; [exact Hg|lia].
Qed.

Lemma greedy_Some k min n r :
  greedy k min n = Some r ->
  exists i, min <= i <= n /\ k i = Some r /\ forall j, i < j <= n -> k j = None.
Proof.
  induction n as [|n IH]; simpl.
  - destruct (Nat.ltb_spec 0 min) as [Hlt|Hge]; [congruence|].
    destruct (k 0) eqn:E; [|congruence].
    intros [= ->]. exists 0. split; [lia|]. split; [exact E|]. intros; lia.
  - destruct (Nat.ltb_spec (S n) min) as [Hlt|Hge]; [congruence|].
    destruct (k (S n)) eqn:E.
    + intros [= ->]. exists (S n). split; [lia|]. split; [exact E|]. intros; lia.
    + intros Hg. destruct (IH Hg) as (i & Hi & Hk & Hj).
      exists i. split; [lia|]. split; [exact Hk|].
      intros j Hj'. destruct (Nat.eq_dec j (S n)) as [->|Hne]; [exact E|].
      apply Hj; lia.
Qed.

(** The first success below the failures is the answer. *)
Lemma greedy_first k min n i r :
  min <= i <= n -> k i = Some r -> (forall j, i < j <= n -> k j = None) ->
  greedy k min n = Some r.
Proof.
  intros Hi Hk Hj. destruct (greedy k min n) as [r'|] eqn:E.
  - destruct (greedy_Some _ _ _ _ E) as (i' & Hi' & Hk' & Hj').
    destruct (Nat.lt_trichotomy i i') as [Hlt|[->|Hlt]].
    + rewrite Hj in Hk' by lia. congruence.
    + congruence.
    + rewrite Hj' in Hk by lia. congruence.
  - rewrite (greedy_None _ _ _ E i Hi) in Hk. congruence.
Qed.

End Greedy.

Lemma span_le a s : span a s <= length s.
Proof. induction s as [|c s IH]; simpl; [lia|]. destruct (accepts a c); simpl; lia. Qed.

Lemma span_take a s i :
  i <= span a s -> forallb (accepts a) (take i s) = true.
Proof.
  revert i. induction s as [|c s IH]; intros [|i]; simpl; try reflexivity; try lia.
  destruct (accepts a c) eqn:E; [|lia]. intros Hi. simpl.
  apply IH. lia.
Qed.

Lemma span_app_ge a w s :
  forallb (accepts a) w = true -> length w <= span a (w ++ s).
Proof.
  induction w as [|c w IH]; simpl; [lia|].
  intros [-> Hw]%andb_prop. specialize (IH Hw). lia.
Qed.

(** A run of accepted characters that stops at a rejected one, or at
    the end of the text, is the span. *)
Lemma span_app_stop a w s :
  forallb (accepts a) w = true ->
  match s with [] => True | c :: _ => accepts a c = false end ->
  span a (w ++ s) = length w.
Proof.
  induction w as [|c w IH]; simpl.
  - intros _. destruct s as [|c s]; simpl; [reflexivity|]. now intros ->.
  - intros [-> Hw]%andb_prop Hs. now rewrite IH.
Qed.

Lemma run_literal k ops s m :
  run (literal k ++ ops) (list_ascii_of_string k ++ s) m = run ops s m.
Proof.
  unfold literal. induction k as [|c k IH]; simpl; [reflexivity|].
  now rewrite Ascii.eqb_refl.
Qed.

Lemma run_literal_inv k ops s m r :
  run (literal k ++ ops) s m = Some r ->
  exists s', s = list_ascii_of_string k ++ s' /\ run ops s' m = Some r.
Proof.
  unfold literal. revert s. induction k as [|c k IH]; simpl; intros s H.
  - now exists s.
  - destruct s as [|x s]; [discriminate|].
    destruct (Ascii.eqb_spec x c) as [->|]; [|discriminate].
    destruct (IH _ H) as (s' & -> & Hr). now exists s'.
Qed.

Lemma run_repeat_inv min a ops s m r :
  run (MAX_REPEAT min a :: ops) s m = Some r ->
  exists w s', s = w ++ s' /\ min <= length w
               /\ forallb (accepts a) w = true /\ run ops s' m = Some r.
Proof.
  simpl. intros H. destruct (greedy_Some _ _ _ _ H) as (i & Hi & Hk & _).
  exists (take i s), (drop i s). repeat split.
  - now rewrite take_drop.
  - rewrite length_take. pose proof (span_le a s). lia.
  - apply span_take. lia.
  - exact Hk.
Qed.

(** Completeness of the repetition: any admissible split whose rest
    matches makes the repetition succeed (maybe with a longer split). *)
Lemma run_repeat_is_Some min a ops w s m :
  min <= length w -> forallb (accepts a) w = true ->
  is_Some (run ops s m) -> is_Some (run (MAX_REPEAT min a :: ops) (w ++ s) m).
Proof.
  intros Hmin Hw [r Hr]. simpl.
  destruct (greedy _ min (span a (w ++ s))) eqn:E; [eauto|].
  pose proof (span_app_ge a w s Hw).
  apply greedy_None with (i := length w) in E; [|lia].
  rewrite drop_app_length in E. congruence.
Qed.

(** Whether a run succeeds does not depend on the marks it started with. *)
Lemma run_is_Some_marks ops : forall s m m',
  is_Some (run ops s m) -> is_Some (run ops s m').
Proof.
  induction ops as [|[a|min a|i] ops IH]; simpl; intros s m m'.
  - eauto.
  - destruct s as [|c s]; [trivial|]. destruct (accepts a c); [apply IH|trivial].
  - intros [r Hr]. destruct (greedy_Some _ _ _ _ Hr) as (i & Hi & Hk & _).
    destruct (greedy (fun i => run ops (drop i s) m') min (span a s)) eqn:E; [eauto|].
    apply greedy_None with (i := i) in E; [|lia].
    destruct (IH (drop i s) m m' (ex_intro _ _ Hk)) as [? ?]. congruence.
  - apply IH.
Qed.

End ReFacts.

Module PatternFacts.
Import Re ReFacts.

Lemma PATTERN_eq : PATTERN = literal "send email to " ++ tail1.
Proof. reflexivity. Qed.

Lemma tail1_eq :
  tail1 = MARK 0 :: MAX_REPEAT 1 address_set :: AT (LITERAL "@")
          :: MAX_REPEAT 1 address_set :: MARK 1 :: literal " about " ++ tail2.
Proof. reflexivity. Qed.

Lemma tail2_eq :
  tail2 = MARK 2 :: MAX_REPEAT 0 ANY :: MARK 3 :: literal " saying '" ++ tail3.
Proof. reflexivity. Qed.

Lemma tail3_eq :
  tail3 = MARK 4 :: MAX_REPEAT 1 ANY :: MARK 5 :: literal "'" ++ [].
Proof. reflexivity. Qed.

Lemma run_at_inv a ops s m r :
  run (AT a :: ops) s m = Some r ->
  exists c s', s = c :: s' /\ accepts a c = true /\ run ops s' m = Some r.
Proof.
  simpl. destruct s as [|c s]; [discriminate|].
  destruct (accepts a c) eqn:E; [|discriminate]. eauto.
Qed.

Lemma take_length_suffix {A} (x y : list A) :
  take (length (x ++ y) - length y) (x ++ y) = x.
Proof.
  rewrite length_app. replace (length x + length y - length y) with (length x) by lia.
  apply take_app_length.
Qed.

Lemma nonempty_length {A} (l : list A) : 1 <= length l <-> l <> [].
Proof. destruct l; simpl; split; intros; try congruence; lia. Qed.

Lemma run_mark i ops s m : run (MARK i :: ops) s m = run ops s ((i, s) :: m).
Proof. reflexivity. Qed.

Lemma run_tail3_inv s m m' r :
  run tail3 s m = Some (m', r) ->
  exists body,
    s = body ++ chars "'" ++ r
    /\ body <> [] /\ forallb not_newline body = true
    /\ m' = (5, chars "'" ++ r) :: (4, s) :: m.
Proof.
  unfold tail3, capture. simpl app. rewrite run_mark. intros H.
  apply run_repeat_inv in H as (body & s' & -> & Hlen & Hbody & H).
  rewrite run_mark, <- (app_nil_r (literal "'")) in H.
  apply run_literal_inv in H as (s'' & -> & H).
  simpl in H. injection H as <- <-.
  exists body. split; [reflexivity|]. split; [now apply nonempty_length|].
  split; [exact Hbody|reflexivity].
Qed.

Lemma run_tail2_inv s m m' r :
  run tail2 s m = Some (m', r) ->
  exists subject body,
    s = subject ++ chars " saying '" ++ body ++ chars "'" ++ r
    /\ forallb not_newline subject = true
    /\ body <> [] /\ forallb not_newline body = true
    /\ m' = (5, chars "'" ++ r) :: (4, body ++ chars "'" ++ r)
             :: (3, chars " saying '" ++ body ++ chars "'" ++ r) :: (2, s) :: m.
Proof.
  unfold tail2, capture. simpl app. rewrite run_mark. intros H.
  apply run_repeat_inv in H as (subject & s' & -> & _ & Hsubject & H).
  rewrite run_mark in H.
  apply (run_literal_inv " saying '" tail3) in H as (s'' & -> & H).
  apply run_tail3_inv in H as (body & -> & Hne & Hbody & ->).
  exists subject, body. repeat (split; [assumption || reflexivity|]). reflexivity.
Qed.

Lemma run_tail1_inv s m m' r :
  run tail1 s m = Some (m', r) ->
  exists a subject body,
    s = a ++ chars " about " ++ subject ++ chars " saying '" ++ body
        ++ chars "'" ++ r
    /\ address_shape a
    /\ forallb not_newline subject = true
    /\ body <> [] /\ forallb not_newline body = true
    /\ m' = (5, chars "'" ++ r) :: (4, body ++ chars "'" ++ r)
             :: (3, chars " saying '" ++ body ++ chars "'" ++ r)
             :: (2, subject ++ chars " saying '" ++ body ++ chars "'" ++ r)
             :: (1, chars " about " ++ subject ++ chars " saying '" ++ body
                    ++ chars "'" ++ r)
             :: (0, s) :: m.
Proof.
  unfold tail1, capture. simpl app. rewrite run_mark. intros H.
  apply run_repeat_inv in H as (l & s1 & -> & Hl1 & Hl & H).
  apply run_at_inv in H as (c & s2 & -> & Hc & H).
  apply Ascii.eqb_eq in Hc as ->.
  apply run_repeat_inv in H as (d & s3 & -> & Hd1 & Hd & H).
  rewrite run_mark in H.
  apply (run_literal_inv " about " tail2) in H as (s4 & -> & H).
  apply run_tail2_inv in H as (subject & body & -> & Hsubject & Hne & Hbody & ->).
  exists (l ++ "@"%char :: d), subject, body.
  split; [now rewrite <- app_assoc|].
  split; [exists l, d; rewrite <- !nonempty_length; auto|].
  repeat (split; [assumption|]). reflexivity.
Qed.

(** What a successful run of the pattern says about the subject and
    about the three groups. *)
Lemma run_PATTERN_inv s m r :
  run PATTERN s [] = Some (m, r) ->
  exists a subject body,
    s = instruction_text a subject body ++ r
    /\ address_shape a
    /\ forallb not_newline subject = true
    /\ body <> [] /\ forallb not_newline body = true
    /\ group m 1 = a /\ group m 2 = subject /\ group m 3 = body.
Proof.
  rewrite PATTERN_eq. intros H.
  apply run_literal_inv in H as (s0 & -> & H).
  apply run_tail1_inv in H as (a & subject & body & -> & Ha & Hs & Hne & Hb & ->).
  exists a, subject, body.
  split; [unfold instruction_text; now rewrite <- !app_assoc|].
  repeat (split; [assumption|]).
  unfold group, mark_at. simpl List.find. simpl fmap. cbv beta iota.
  repeat split.
  - apply take_length_suffix.
  - apply take_length_suffix.
  - apply take_length_suffix.
Qed.

Lemma run_at a ops c s m :
  accepts a c = true -> run (AT a :: ops) (c :: s) m = run ops s m.
Proof. simpl. now intros ->. Qed.

(** Every text of the grammar makes the run succeed. *)
Lemma run_PATTERN_complete s : grammar_prefix s -> is_Some (run PATTERN s []).
Proof.
  intros (a & subject & body & rest & -> & (l & d & -> & Hl & Hlc & Hd & Hdc)
          & Hs & Hb & Hbc).
  apply nonempty_length in Hl, Hd, Hb.
  unfold instruction_text. rewrite PATTERN_eq, <- !app_assoc, run_literal.
  rewrite tail1_eq, run_mark.
  apply run_repeat_is_Some; [assumption..|].
  rewrite <- app_comm_cons, run_at by reflexivity.
  apply run_repeat_is_Some; [assumption..|].
  rewrite run_mark, run_literal, tail2_eq, run_mark.
  apply run_repeat_is_Some; [lia|assumption|].
  rewrite run_mark, run_literal, tail3_eq, run_mark.
  apply run_repeat_is_Some; [assumption..|].
  rewrite run_mark, run_literal. simpl. eauto.
Qed.

Lemma forallb_drop {A} (p : A -> bool) n (l : list A) :
  forallb p l = true -> forallb p (drop n l) = true.
Proof.
  revert n. induction l as [|x l IH]; intros [|n]; simpl; auto.
  intros [_ H]%andb_prop. now apply IH.
Qed.

Lemma not_quote_count l :
  forallb not_quote l = true -> count_occ ascii_dec l Char.quote = 0.
Proof.
  induction l as [|c l IH]; simpl; [reflexivity|].
  intros [Hc Hl]%andb_prop. destruct (ascii_dec c Char.quote) as [->|]; [discriminate|].
  now apply IH.
Qed.

(** The text before the first occurrence of a character is determined. *)
Lemma first_occurrence_unique {A} (x : A) l1 : forall l2 l1' l2',
  ~ In x l1 -> ~ In x l1' -> l1 ++ x :: l2 = l1' ++ x :: l2' -> l1 = l1'.
Proof.
  induction l1 as [|y l1 IH]; intros l2 [|y' l1'] l2' H1 H2; simpl; intros E.
  - reflexivity.
  - injection E as <- _. exfalso. apply H2. now left.
  - injection E as -> _. exfalso. apply H1. now left.
  - injection E as <- E. f_equal. apply (IH l2 l1' l2'); [| |exact E].
    + intros Hin. apply H1. now right.
    + intros Hin. apply H2. now right.
Qed.

(** With no quote in the body or after the closing quote, no later
    position starts with the words before the body and a quoted text. *)
Lemma no_later_saying body rest n b r :
  forallb not_quote body = true -> forallb not_quote rest = true ->
  1 <= n ->
  drop n (chars " saying '" ++ body ++ chars "'" ++ rest)
  = chars " saying '" ++ b ++ chars "'" ++ r ->
  False.
Proof.
  intros Hbody Hrest Hn E.
  set (u := chars " saying '" ++ body ++ chars "'" ++ rest) in *.
  assert (Hu : u = take n u ++ chars " saying '" ++ b ++ chars "'" ++ r)
    by (rewrite <- E; symmetry; apply take_drop).
  set (p := take n u) in *.
  assert (Hp : p <> []).
  { unfold p. destruct n as [|n]; [lia|]. discriminate. }
  assert (Hcount : count_occ ascii_dec p Char.quote = 0).
  { apply (f_equal (fun l => count_occ ascii_dec l Char.quote)) in Hu.
    unfold u in Hu. rewrite !count_occ_app in Hu.
    rewrite (not_quote_count body), (not_quote_count rest) in Hu by assumption.
    simpl in Hu. lia. }
  apply count_occ_not_In in Hcount.
  assert (Heq : chars " saying " = p ++ chars " saying ").
  { apply (first_occurrence_unique Char.quote) with
      (l2 := body ++ chars "'" ++ rest) (l2' := b ++ chars "'" ++ r).
    - simpl. intros H. repeat (destruct H as [H|H]; [discriminate|]). exact H.
    - intros [H|H]%in_app_or; [now apply Hcount|].
      simpl in H. repeat (destruct H as [H|H]; [discriminate|]). exact H.
    - rewrite <- app_assoc. exact Hu. }
  apply (f_equal length) in Heq. rewrite length_app in Heq.
  destruct p; [congruence|simpl in Heq; lia].
Qed.

Lemma run_tail3_exact body rest m :
  body <> [] -> forallb not_newline body = true ->
  forallb not_quote rest = true ->
  run tail3 (body ++ chars "'" ++ rest) m
  = Some ((5, chars "'" ++ rest) :: (4, body ++ chars "'" ++ rest) :: m, rest).
Proof.
  intros Hne Hbody Hrest. apply nonempty_length in Hne.
  rewrite tail3_eq, run_mark.
  cbn [run]. apply greedy_first with (i := length body).
  - split; [exact Hne|]. now apply span_app_ge.
  - now rewrite drop_app_length, run_literal.
  - intros j [Hj _].
    replace j with (length body + (1 + (j - length body - 1))) by lia.
    rewrite drop_app_add. simpl drop at 1.
    pose proof (forallb_drop not_quote (j - length body - 1) rest Hrest) as Hd.
    destruct (drop _ rest) as [|c t]; [reflexivity|].
    simpl in Hd. apply andb_prop in Hd as [Hc _].
    unfold not_quote in Hc. rewrite (app_nil_r (literal "'")).
    change (literal "'") with [AT (LITERAL Char.quote)]. cbn [run accepts].
    now destruct (Ascii.eqb c Char.quote).
Qed.

Lemma run_tail2_exact subject body rest m :
  forallb not_newline subject = true ->
  body <> [] -> forallb not_newline body = true ->
  forallb not_quote body = true -> forallb not_quote rest = true ->
  run tail2 (subject ++ chars " saying '" ++ body ++ chars "'" ++ rest) m
  = Some ((5, chars "'" ++ rest) :: (4, body ++ chars "'" ++ rest)
          :: (3, chars " saying '" ++ body ++ chars "'" ++ rest)
          :: (2, subject ++ chars " saying '" ++ body ++ chars "'" ++ rest)
          :: m, rest).
Proof.
  intros Hsubject Hne Hbody Hbq Hrest.
  rewrite tail2_eq, run_mark.
  cbn [run]. apply greedy_first with (i := length subject).
  - split; [lia|]. now apply span_app_ge.
  - rewrite drop_app_length, run_literal. now apply run_tail3_exact.
  - intros j [Hj _].
    replace j with (length subject + (j - length subject)) by lia.
    rewrite drop_app_add.
    match goal with |- ?lhs = None => destruct lhs as [[m' r]|] eqn:E end;
      [|reflexivity].
    apply run_literal_inv in E as (s' & Hs' & E).
    apply run_tail3_inv in E as (b & -> & _ & _ & _).
    exfalso. apply (no_later_saying body rest (j - length subject) b r);
      [assumption..|lia|exact Hs'].
Qed.

Lemma run_tail1_exact l d subject body rest m :
  l <> [] -> forallb address_char l = true ->
  d <> [] -> forallb address_char d = true ->
  forallb not_newline subject = true ->
  body <> [] -> forallb not_newline body = true ->
  forallb not_quote body = true -> forallb not_quote rest = true ->
  let s2 := subject ++ chars " saying '" ++ body ++ chars "'" ++ rest in
  run tail1 (l ++ "@"%char :: d ++ chars " about " ++ s2) m
  = Some ((5, chars "'" ++ rest) :: (4, body ++ chars "'" ++ rest)
          :: (3, chars " saying '" ++ body ++ chars "'" ++ rest)
          :: (2, s2) :: (1, chars " about " ++ s2)
          :: (0, l ++ "@"%char :: d ++ chars " about " ++ s2) :: m, rest).
Proof.
  intros Hl Hlc Hd Hdc Hsubject Hne Hbody Hbq Hrest s2.
  apply nonempty_length in Hl, Hd.
  rewrite tail1_eq, run_mark. cbn [run].
  rewrite (span_app_stop address_set l) by (assumption || reflexivity).
  apply greedy_first with (i := length l); [lia| |intros; lia].
  rewrite drop_app_length.
  rewrite (span_app_stop address_set d) by (assumption || reflexivity).
  apply greedy_first with (i := length d); [lia| |intros; lia].
  rewrite drop_app_length, run_literal.
  now apply run_tail2_exact.
Qed.

(** The run on a text of the grammar whose body and trailing text hold
    no quote: the groups are the three parts of the text. *)
Lemma run_PATTERN_exact a subject body rest :
  address_shape a ->
  forallb not_newline subject = true ->
  body <> [] -> forallb not_newline body = true ->
  forallb not_quote body = true -> forallb not_quote rest = true ->
  exists m, run PATTERN (instruction_text a subject body ++ rest) [] = Some (m, rest)
            /\ group m 1 = a /\ group m 2 = subject /\ group m 3 = body.
Proof.
  intros (l & d & -> & Hl & Hlc & Hd & Hdc) Hsubject Hne Hbody Hbq Hrest.
  eexists. split.
  - unfold instruction_text.
    rewrite PATTERN_eq, <- !app_assoc, run_literal, <- app_comm_cons.
    now apply run_tail1_exact.
  - unfold group, mark_at. simpl List.find. simpl fmap. cbv beta iota.
    split; [|split; apply take_length_suffix].
    rewrite (app_comm_cons d), (app_assoc l). apply take_length_suffix.
Qed.

End PatternFacts.

(** ** Strings, lowercasing and the parsing stage *)

Module ParseFacts.
Import Re ReFacts PatternFacts.

Lemma chars_app a b : chars (a +:+ b) = chars a ++ chars b.
Proof. induction a as [|c a IH]; simpl; [reflexivity|]. now rewrite IH. Qed.

Lemma chars_lower s : chars (lower s) = map Char.lower (chars s).
Proof. induction s as [|c s IH]; simpl; [reflexivity|]. now rewrite IH. Qed.

Lemma lower_app a b : lower (a +:+ b) = lower a +:+ lower b.
Proof. induction a as [|c a IH]; simpl; [reflexivity|]. now rewrite IH. Qed.

Ltac each_char c := destruct c as [[] [] [] [] [] [] [] []]; vm_compute; try reflexivity.

Lemma address_char_lower c : address_char (Char.lower c) = address_char c.
Proof. each_char c. Qed.

Lemma not_newline_lower c : not_newline (Char.lower c) = not_newline c.
Proof. each_char c. Qed.

Lemma not_quote_lower c : not_quote (Char.lower c) = not_quote c.
Proof. each_char c. Qed.

Lemma lower_at c : Char.lower c = "@"%char -> c = "@"%char.
Proof. each_char c; discriminate. Qed.

Lemma forallb_map_lower (p : ascii -> bool) l :
  (forall c, p (Char.lower c) = p c) ->
  forallb p (map Char.lower l) = forallb p l.
Proof. intros Hp. induction l as [|c l IH]; simpl; [reflexivity|]. now rewrite Hp, IH. Qed.

Lemma address_shape_lower a :
  address_shape (map Char.lower a) <-> address_shape a.
Proof.
  split.
  - intros (l & d & E & Hl & Hlc & Hd & Hdc).
    apply map_eq_app in E as (l' & t & -> & <- & E).
    apply map_eq_cons in E as (c & d' & -> & Hc & <-).
    apply lower_at in Hc as ->.
    rewrite forallb_map_lower in Hlc, Hdc by apply address_char_lower.
    exists l', d'. repeat split; try assumption.
    + intros ->. now apply Hl.
    + intros ->. now apply Hd.
  - intros (l & d & -> & Hl & Hlc & Hd & Hdc).
    exists (map Char.lower l), (map Char.lower d).
    rewrite !forallb_map_lower by apply address_char_lower.
    repeat split; try assumption.
    + now rewrite map_app.
    + destruct l; [congruence|discriminate].
    + destruct d; [congruence|discriminate].
Qed.

(** A successful parse returns three parts of the lowercased
    instruction, in the places the grammar gives them. *)
Lemma parse_Ok_inv instruction to_email subject body :
  parse instruction = Ok (to_email, subject, body) ->
  exists rest,
    chars (lower instruction)
    = instruction_text (chars to_email) (chars subject) (chars body) ++ rest
    /\ address_shape (chars to_email)
    /\ forallb not_newline (chars subject) = true
    /\ body <> ""%string /\ forallb not_newline (chars body) = true.
Proof.
  unfold parse, re_match.
  destruct (run PATTERN (chars (lower instruction)) []) as [[m r]|] eqn:E;
    simpl; [|discriminate].
  intros [= <- <- <-].
  apply run_PATTERN_inv in E as (a & s & b & E & Ha & Hs & Hne & Hb & -> & -> & ->).
  rewrite !list_ascii_of_string_of_list_ascii.
  exists r. repeat split; try assumption.
  intros Hb'. apply Hne.
  apply (f_equal chars) in Hb'. now rewrite list_ascii_of_string_of_list_ascii in Hb'.
Qed.

Lemma parse_exact instruction a subject body rest :
  chars (lower instruction) = instruction_text a subject body ++ rest ->
  address_shape a ->
  forallb not_newline subject = true ->
  body <> [] -> forallb not_newline body = true ->
  forallb not_quote body = true -> forallb not_quote rest = true ->
  parse instruction
  = Ok (string_of_list_ascii a, string_of_list_ascii subject,
        string_of_list_ascii body).
Proof.
  intros E Ha Hs Hne Hb Hbq Hr.
  destruct (run_PATTERN_exact a subject body rest Ha Hs Hne Hb Hbq Hr)
    as (m & Hrun & G1 & G2 & G3).
  unfold parse, re_match. rewrite E, Hrun. simpl. now rewrite G1, G2, G3.
Qed.

(** The parsing stage fails exactly when the lowercased instruction
    does not start with a text of the grammar. *)
Lemma parse_Raise_iff instruction :
  parse instruction = Raise (ValueError INVALID_FORMAT)
  <-> ~ grammar_prefix (chars (lower instruction)).
Proof.
  unfold parse, re_match. split.
  - intros H Hg. apply run_PATTERN_complete in Hg as [r Hr].
    rewrite Hr in H. destruct r. discriminate.
  - intros Hg.
    destruct (run PATTERN (chars (lower instruction)) []) as [[m r]|] eqn:E;
      simpl; [|reflexivity].
    exfalso. apply Hg.
    apply run_PATTERN_inv in E as (a & s & b & E & Ha & Hs & Hne & Hb & _).
    now exists a, s, b, r.
Qed.

Lemma parse_Raise instruction e :
  parse instruction = Raise e -> e = ValueError INVALID_FORMAT.
Proof.
  unfold parse. destruct (re_match _ _); [discriminate|]. now intros [= <-].
Qed.

(** Every instruction whose lowercased text starts with a text of the
    grammar is parsed, and the three values returned are parts of the
    lowercased instruction. *)
Lemma parse_total_on_grammar instruction :
  grammar_prefix (chars (lower instruction)) ->
  exists to_email subject body rest,
    parse instruction = Ok (to_email, subject, body)
    /\ chars (lower instruction)
       = instruction_text (chars to_email) (chars subject) (chars body) ++ rest.
Proof.
  intros Hg. destruct (parse instruction) as [[[a b] c]|e] eqn:E.
  - destruct (parse_Ok_inv _ _ _ _ E) as (rest & Hrest & _). now exists a, b, c, rest.
  - pose proof (parse_Raise _ _ E) as ->. now apply parse_Raise_iff in E.
Qed.

(** A run that computes to no match refutes the grammar. *)
Lemma no_run_no_grammar s : run PATTERN s [] = None -> ~ grammar_prefix s.
Proof.
  intros H Hg. apply run_PATTERN_complete in Hg as [r Hr]. congruence.
Qed.

End ParseFacts.

(** ** The parsing stage: properties of the design document *)

Section ParsingClaims.
Import ParseFacts.

(** C1 (as the code has it).  For an instruction made of the three
    keywords in any letter case, an address-shaped recipient, a subject
    without a newline, a non-empty body without a newline or a quote, a
    closing quote and trailing text without a quote, the parsing stage
    returns the recipient, the subject and the body of the instruction,
    each of them lowercased: the groups are captured from the lowercased
    instruction, not from the text as written. *)
Theorem parse_returns_lowercased_groups
    (k1 k2 k3 addr subject body rest : string) :
  lower k1 = "send email to " -> lower k2 = " about " ->
  lower k3 = " saying '" ->
  address_shape (chars addr) ->
  forallb not_newline (chars subject) = true ->
  body <> "" ->
  forallb not_newline (chars body) = true ->
  forallb not_quote (chars body) = true ->
  forallb not_quote (chars rest) = true ->
  parse (k1 +:+ addr +:+ k2 +:+ subject +:+ k3 +:+ body +:+ "'" +:+ rest)
  = Ok (lower addr, lower subject, lower body).
Proof.
  intros Hk1 Hk2 Hk3 Ha Hs Hne Hb Hbq Hr.
  rewrite <- (string_of_list_ascii_of_string (lower addr)),
          <- (string_of_list_ascii_of_string (lower subject)),
          <- (string_of_list_ascii_of_string (lower body)).
  apply parse_exact with (rest := chars (lower rest)).
  - rewrite !lower_app, Hk1, Hk2, Hk3, !chars_app.
    unfold instruction_text. now rewrite <- !app_assoc.
  - rewrite chars_lower. now apply address_shape_lower.
  - rewrite chars_lower, forallb_map_lower; [assumption|apply not_newline_lower].
  - rewrite chars_lower. destruct body; [congruence|discriminate].
  - rewrite chars_lower, forallb_map_lower; [assumption|apply not_newline_lower].
  - rewrite chars_lower, forallb_map_lower; [assumption|apply not_quote_lower].
  - rewrite chars_lower, forallb_map_lower; [assumption|apply not_quote_lower].
Qed.

Lemma address_shape_joe : address_shape (chars "Joe@Example.com").
Proof. exists (chars "Joe"), (chars "Example.com"). repeat split; discriminate. Qed.

Lemma parse_returns_lowercased_groups_witness :
  parse "Send Email To Joe@Example.com About Meeting Saying 'Hello from automation'"
  = Ok ("joe@example.com", "meeting", "hello from automation")%string.
Proof.
  apply (parse_returns_lowercased_groups "Send Email To " " About " " Saying '"
           "Joe@Example.com" "Meeting" "Hello from automation" "");
    try reflexivity.
  - exact address_shape_joe.
  - discriminate.
Defined.

(** The scenario of the design document: the subject and the body come
    back lowercased, not as written. *)
Lemma parse_not_verbatim :
  parse "send email to joe@example.com about Meeting saying 'Hello from automation'"
  = Ok ("joe@example.com", "meeting", "hello from automation")%string
  /\ parse "send email to joe@example.com about Meeting saying 'Hello from automation'"
     <> Ok ("joe@example.com", "Meeting", "Hello from automation")%string.
Proof. split; [reflexivity|discriminate]. Qed.

(** C5 (as the code has it).  When the lowercased instruction does not
    start with a text of the grammar, the parsing stage raises the format
    error and [mock_llm_reason] returns no steps, whatever the page and
    the provider; nothing is logged. *)
Theorem parse_rejects_non_grammar
    (instruction html_content provider : string) (t : trace) :
  ~ grammar_prefix (chars (lower instruction)) ->
  parse instruction = Raise (ValueError INVALID_FORMAT)
  /\ mock_llm_reason instruction html_content provider t
     = (Raise (ValueError INVALID_FORMAT), t).
Proof.
  intros H. apply parse_Raise_iff in H. split; [exact H|].
  unfold mock_llm_reason, bind, lift. now rewrite H.
Qed.

Lemma parse_rejects_non_grammar_witness :
  parse "send email to joe@example.com about Meeting saying 'no closing quote"
  = Raise (ValueError INVALID_FORMAT)
  /\ mock_llm_reason
       "send email to joe@example.com about Meeting saying 'no closing quote"
       "<html></html>" "gmail" []
     = (Raise (ValueError INVALID_FORMAT), []).
Proof.
  apply (parse_rejects_non_grammar
           "send email to joe@example.com about Meeting saying 'no closing quote"
           "<html></html>" "gmail" []).
  apply no_run_no_grammar. vm_compute. reflexivity.
Defined.

(** Text after the closing quote is outside the grammar, and the
    instruction is parsed all the same. *)
Lemma parse_accepts_trailing_text :
  (forall a subject body,
     chars "send email to a@b.com about x saying 'y' and then more"
     <> instruction_text a subject body)
  /\ parse "send email to a@b.com about x saying 'y' and then more"
     = Ok ("a@b.com", "x", "y")%string.
Proof.
  split; [|reflexivity].
  intros a subject body E.
  apply (f_equal (fun l => List.last l "x"%char)) in E.
  unfold instruction_text in E. rewrite !app_assoc in E.
  change (chars "'") with ["'"%char] in E.
  rewrite List.last_last in E. vm_compute in E. discriminate.
Qed.

(** C10.  The recipient of an instruction is accepted exactly when it is
    one or more address characters (word characters, dots, hyphens), an
    at sign, and one or more address characters: [a@b], whose domain has
    no dot, is accepted, and [user+tag@example.com] is rejected. *)
Theorem recipient_check_is_address_shape :
  (forall addr : string,
     address_shape (chars addr)
     <-> parse ("send email to " +:+ addr +:+ " about x saying 'y'")
         = Ok (lower addr, "x", "y")%string)
  /\ (forall instruction to_email subject body,
        parse instruction = Ok (to_email, subject, body) ->
        address_shape (chars to_email))
  /\ parse "send email to a@b about x saying 'y'" = Ok ("a@b", "x", "y")%string
  /\ parse "send email to user+tag@example.com about x saying 'y'"
     = Raise (ValueError INVALID_FORMAT).
Proof.
  split; [|split; [|split; reflexivity]].
  - intros addr. split.
    + intros Ha.
      rewrite <- (string_of_list_ascii_of_string (lower addr)).
      apply (parse_exact _ (chars (lower addr)) (chars "x") (chars "y") []);
        try reflexivity; try discriminate.
      * rewrite !lower_app, !chars_app. unfold instruction_text.
        now rewrite <- !app_assoc.
      * rewrite chars_lower. now apply address_shape_lower.
    + intros H. apply parse_Ok_inv in H as (_ & _ & Ha & _).
      rewrite chars_lower in Ha. now apply address_shape_lower.
  - intros instruction to_email subject body H.
    now apply parse_Ok_inv in H as (_ & _ & Ha & _).
Qed.

End ParsingClaims.

(** ** mock_llm_reason: properties *)

Module CompilerFacts.

Lemma LABELS_other p : p <> "gmail"%string -> p <> "outlook"%string -> LABELS !! p = None.
Proof.
  intros H1 H2. unfold LABELS.
  rewrite lookup_insert_ne by congruence.
  apply lookup_singleton_ne. congruence.
Qed.

Lemma mock_llm_reason_supported instruction html_content p t g :
  parse instruction = Ok g -> p = "gmail"%string \/ p = "outlook"%string ->
  mock_llm_reason instruction html_content p t = (Raise (KeyError "to"), t).
Proof.
  intros Hg Hp. unfold mock_llm_reason, bind, lift. rewrite Hg.
  destruct g as [[to_email subject] body].
  destruct Hp as [-> | ->]; reflexivity.
Qed.

(** [mock_llm_reason] returns no plan, whatever its arguments. *)
Lemma mock_llm_reason_raises instruction html_content p t :
  exists e, mock_llm_reason instruction html_content p t = (Raise e, t).
Proof.
  destruct (parse instruction) as [g|e] eqn:Hg.
  - destruct (decide (p = "gmail"%string)) as [->|H1];
      [eexists; eapply mock_llm_reason_supported; eauto|].
    destruct (decide (p = "outlook"%string)) as [->|H2];
      [eexists; eapply mock_llm_reason_supported; eauto|].
    unfold mock_llm_reason, bind, lift. rewrite Hg.
    destruct g as [[to_email subject] body].
    rewrite LABELS_other by assumption. simpl. eauto.
  - unfold mock_llm_reason, bind, lift. rewrite Hg. eauto.
Qed.

Lemma stateless_ret {A} (a : A) : stateless (ret a).
Proof. exists (Ok a), []. intros t. unfold ret. now rewrite app_nil_r. Qed.

Lemma stateless_raise {A} e : stateless (@raise A e).
Proof. exists (Raise e), []. intros t. unfold raise. now rewrite app_nil_r. Qed.

Lemma stateless_lift {A} (r : res A) : stateless (lift r).
Proof. exists r, []. intros t. unfold lift. now rewrite app_nil_r. Qed.

Lemma stateless_log lvl msg : stateless (log lvl msg).
Proof. now exists (Ok tt), [Log lvl msg]. Qed.

Lemma stateless_getitem d k : stateless (getitem d k).
Proof. unfold getitem. destruct (d !! k); [apply stateless_ret|apply stateless_raise]. Qed.

Lemma stateless_bind {A B} (m : M A) (f : A -> M B) :
  stateless m -> (forall a, stateless (f a)) -> stateless (bind m f).
Proof.
  intros (r & logs & Hm) Hf. destruct r as [a|e].
  - destruct (Hf a) as (r' & logs' & Hfa).
    exists r', (logs ++ logs'). intros t.
    unfold bind. now rewrite Hm, Hfa, app_assoc.
  - exists (Raise e), logs. intros t. unfold bind. now rewrite Hm.
Qed.

Lemma stateless_check_labels labels html_content steps :
  stateless (check_labels labels html_content steps).
Proof.
  induction steps as [|[action params] steps IH]; simpl; [apply stateless_ret|].
  apply stateless_bind; [|intros _; exact IH].
  destruct (params !! "label"); [|apply stateless_ret].
  apply stateless_bind; [apply stateless_getitem|]. intros expected.
  destruct (contains _ _); [apply stateless_ret|apply stateless_log].
Qed.

Lemma stateless_build_steps labels to_email subject body :
  stateless (build_steps labels to_email subject body).
Proof.
  unfold build_steps.
  repeat (apply stateless_bind; [apply stateless_getitem|intros ?]).
  apply stateless_ret.
Qed.

Lemma stateless_mock_llm_reason instruction html_content p :
  stateless (mock_llm_reason instruction html_content p).
Proof.
  unfold mock_llm_reason.
  apply stateless_bind; [apply stateless_lift|].
  intros [[to_email subject] body].
  destruct (decide _); [apply stateless_raise|].
  apply stateless_bind; [apply stateless_build_steps|]. intros steps.
  apply stateless_bind; [apply stateless_check_labels|]. intros _.
  apply stateless_ret.
Qed.

End CompilerFacts.

Section CompilerClaims.
Import CompilerFacts.

(** C2 (what the code does).  For every instruction the parsing stage
    accepts, every page and each of the two providers, the label check of
    [mock_llm_reason] subscripts the label table with the lowercased text
    of the recipient label and raises [KeyError]; no plan is returned
    and no warning is logged. *)
Theorem label_check_raises_KeyError
    (instruction html_content p : string) (t : trace)
    (to_email subject body : string) :
  parse instruction = Ok (to_email, subject, body) ->
  p = "gmail"%string \/ p = "outlook"%string ->
  mock_llm_reason instruction html_content p t = (Raise (KeyError "to"), t).
Proof. intros Hg Hp. now apply mock_llm_reason_supported with (g := (to_email, subject, body)). Qed.

Lemma label_check_raises_KeyError_witness :
  mock_llm_reason
    "send email to joe@example.com about Meeting saying 'Hello from automation'"
    "<html><div aria-label='To'></div></html>" "gmail" []
  = (Raise (KeyError "to"), []).
Proof.
  apply (label_check_raises_KeyError _ _ _ _
           "joe@example.com" "meeting" "hello from automation");
    [reflexivity|now left].
Defined.

(** C3 (what the code does).  The list of lines 51-57 has the five
    steps in the stated order, with the labels of the provider and the
    parts of the task, but [mock_llm_reason] does not return it: on the
    scenario of the design document, for either provider, it raises
    [KeyError]. *)
Theorem plan_is_built_but_not_returned :
  (forall to_email subject body t,
     build_steps (default ∅ (LABELS !! "gmail")) to_email subject body t
     = (Ok (gmail_plan to_email subject body), t))
  /\ (forall to_email subject body t,
        build_steps (default ∅ (LABELS !! "outlook")) to_email subject body t
        = (Ok (outlook_plan to_email subject body), t))
  /\ mock_llm_reason
       "send email to joe@example.com about Meeting saying 'Hello from automation'"
       "" "gmail" []
     = (Raise (KeyError "to"), [])
  /\ mock_llm_reason
       "send email to joe@example.com about Meeting saying 'Hello from automation'"
       "" "outlook" []
     = (Raise (KeyError "to"), []).
Proof. repeat split; reflexivity. Qed.

(** C8.  The result of [mock_llm_reason] does not depend on the trace it
    is started from: two calls with the same instruction, page and
    provider give the same result, whatever was done before each. *)
Theorem mock_llm_reason_deterministic
    (instruction html_content p : string) (t1 t2 : trace) :
  fst (mock_llm_reason instruction html_content p t1)
  = fst (mock_llm_reason instruction html_content p t2).
Proof.
  destruct (stateless_mock_llm_reason instruction html_content p) as (r & logs & H).
  now rewrite !H.
Qed.

End CompilerClaims.

(** ** The executor: properties *)

Module ExecutorFacts.

Section WithSession.
Variable s : Session.
Variable self : GenericUIAgent.

Lemma execute_steps_app pre post t :
  execute_steps s self (pre ++ post) t
  = match execute_steps s self pre t with
    | (Ok _, t') => execute_steps s self post t'
    | (Raise e, t') => (Raise e, t')
    end.
Proof.
  revert t. induction pre as [|st pre IH]; intros t; simpl; [reflexivity|].
  unfold bind. destruct (execute_step s self st t) as [[[]|e] t']; [apply IH|reflexivity].
Qed.

Ltac case_fails :=
  repeat match goal with
         | |- context [fails s ?t ?c] => destruct (fails s t c) as [[]|] eqn:?
         end.

(** A step that returns has done the operations of its block. *)
Lemma execute_step_Ok st t t' :
  execute_step s self st t = (Ok tt, t') ->
  exists block, step_events st = Some block /\ t' = t ++ block.
Proof.
  destruct st as [action params].
  unfold execute_step, step_events, try_except_timeout, bind, getitem, perform,
    log, ret, raise.
  destruct (String.eqb action "click_button").
  - destruct (params !! "role") as [role|]; [|discriminate].
    destruct (params !! "name") as [name|]; [|discriminate].
    case_fails; intros [= <-]; eexists; split; try reflexivity;
      now rewrite <- !app_assoc.
  - destruct (String.eqb action "fill_input").
    + destruct (params !! "label") as [label|]; [|discriminate].
      destruct (params !! "value") as [value|]; case_fails; try discriminate;
        intros [= <-]; eexists; split; try reflexivity;
        now rewrite <- !app_assoc.
    + case_fails; intros [= <-]; eexists; split; reflexivity.
Qed.

(** A plan that returns has done the operations of its steps, block
    after block. *)
Lemma execute_steps_Ok plan : forall t t',
  execute_steps s self plan t = (Ok tt, t') ->
  exists evs, plan_events plan = Some evs /\ t' = t ++ evs.
Proof.
  induction plan as [|st plan IH]; simpl; intros t t'.
  - intros [= <-]. exists []. now rewrite app_nil_r.
  - unfold bind. destruct (execute_step s self st t) as [[[]|e] t1] eqn:E1;
      [|discriminate].
    intros E2.
    apply execute_step_Ok in E1 as (block & -> & ->).
    apply IH in E2 as (evs & -> & ->).
    exists (block ++ evs). now rewrite app_assoc.
Qed.

(** A step whose element is resolved and then does not become visible:
    the error is logged, the screenshot is taken, and the step raises
    the timeout, or what the screenshot raised. *)
Lemma execute_step_timeout st t c loc :
  target st = Some (c, loc) ->
  fails s t c = None ->
  fails s (t ++ [Call c]) (WaitFor loc "visible" 5000) = Some TimeoutError ->
  let t2 := t ++ [Call c; Call (WaitFor loc "visible" 5000);
                  Log ERROR (TextRepr "Timeout waiting for element: " (snd st))] in
  execute_step s self st t
  = (Raise match fails s t2 (Screenshot (screenshot_path self)) with
           | None => TimeoutError
           | Some e => e
           end,
     t2 ++ [Call (Screenshot (screenshot_path self))]).
Proof.
  destruct st as [action params].
  unfold target, execute_step, try_except_timeout, bind, getitem, perform,
    log, ret, raise, screenshot_path.
  destruct (String.eqb action "click_button").
  - destruct (params !! "role") as [role|]; [|discriminate].
    destruct (params !! "name") as [name|]; [|discriminate].
    intros [= <- <-] H1 H2. simpl. rewrite H1, H2.
    rewrite <- !app_assoc. simpl.
    now destruct (fails s _ (Screenshot _)).
  - destruct (String.eqb action "fill_input"); [|discriminate].
    destruct (params !! "label") as [label|]; [|discriminate].
    intros [= <- <-] H1 H2. simpl. rewrite H1, H2.
    rewrite <- !app_assoc. simpl.
    now destruct (fails s _ (Screenshot _)).
Qed.

Lemma mock_llm_reason_parse_Raise instruction html_content p e t :
  parse instruction = Raise e ->
  mock_llm_reason instruction html_content p t = (Raise e, t).
Proof. intros H. unfold mock_llm_reason, bind, lift. now rewrite H. Qed.

(** With an instruction the parsing stage rejects, [execute] raises
    after operations that look up or touch no element of the page. *)
Lemma execute_unparseable instruction e t :
  parse instruction = Raise e ->
  exists e' evs,
    execute s self instruction t = (Raise e', t ++ evs)
    /\ forallb (fun ev => negb (touches_element ev)) evs = true.
Proof.
  intros H.
  unfold execute, with_playwright, bind, perform, page_content, log.
  repeat first
    [ rewrite (mock_llm_reason_parse_Raise _ _ _ e) by exact H
    | match goal with
      | |- context [fails s ?t ?c] => destruct (fails s t c) eqn:?
      end ];
    rewrite <- ?app_assoc; simpl; do 2 eexists; split; reflexivity.
Qed.

Lemma execute_unparseable_cooperative instruction e t :
  cooperative s -> parse instruction = Raise e ->
  execute s self instruction t = (Raise e, t ++ setup_events self).
Proof.
  intros Hs H.
  unfold execute, with_playwright, bind, perform, page_content, log.
  rewrite !Hs. rewrite (mock_llm_reason_parse_Raise _ _ _ e) by exact H.
  rewrite Hs. now rewrite <- !app_assoc.
Qed.

(** [execute] never completes: the steps are never obtained, so the
    loop over them is never entered. *)
Lemma execute_never_completes instruction t :
  exists e, fst (execute s self instruction t) = Raise e.
Proof.
  unfold execute, with_playwright, bind, perform, page_content, log.
  repeat first
    [ match goal with
      | |- context [mock_llm_reason ?i ?h ?p ?t0] =>
          destruct (CompilerFacts.mock_llm_reason_raises i h p t0) as [? ->]
      end
    | match goal with
      | |- context [fails s ?t0 ?c] => destruct (fails s t0 c) eqn:?
      end ];
    simpl; eexists; reflexivity.
Qed.

(** In a session in which no call raises, a plan whose steps have their
    entries is carried out to the end. *)
Lemma execute_steps_cooperative plan : forall t evs,
  cooperative s -> plan_events plan = Some evs ->
  execute_steps s self plan t = (Ok tt, t ++ evs).
Proof.
  induction plan as [|[action params] plan IH];
    cbn [plan_events execute_steps]; intros t evs Hs.
  - intros [= <-]. unfold ret. now rewrite app_nil_r.
  - destruct (step_events (action, params)) as [block|] eqn:Hb; [|discriminate].
    destruct (plan_events plan) as [blocks|]; [|discriminate].
    intros [= <-].
    assert (Hstep : execute_step s self (action, params) t = (Ok tt, t ++ block)).
    { revert Hb.
      unfold execute_step, step_events, try_except_timeout, bind, getitem,
        perform, log, ret.
      destruct (String.eqb action "click_button").
      - destruct (params !! "role"); [|discriminate].
        destruct (params !! "name"); [|discriminate].
        intros [= <-]. rewrite !Hs. now rewrite <- !app_assoc.
      - destruct (String.eqb action "fill_input").
        + destruct (params !! "label"); [|discriminate].
          destruct (params !! "value"); [|discriminate].
          intros [= <-]. rewrite !Hs. now rewrite <- !app_assoc.
        + intros [= <-]. now rewrite Hs. }
    unfold bind. rewrite Hstep, (IH _ blocks Hs eq_refl). now rewrite app_assoc.
Qed.

End WithSession.

End ExecutorFacts.

Section ExecutorClaims.
Import CompilerFacts ExecutorFacts.

(** C6.  In every plan, when the steps before some step succeed and the
    element of that step is resolved but does not become visible within
    5000 ms, and the screenshot call returns, the executor logs the
    error, takes the screenshot [error_<provider>.png] and raises the
    timeout; the trace ends with the screenshot, so that no later step of
    the plan is performed. *)
Theorem timeout_stops_the_plan
    (s : Session) (self : GenericUIAgent) (pre post : list step) (st : step)
    (t0 t1 : trace) (c : call) (loc : locator) :
  execute_steps s self pre t0 = (Ok tt, t1) ->
  target st = Some (c, loc) ->
  fails s t1 c = None ->
  fails s (t1 ++ [Call c]) (WaitFor loc "visible" 5000) = Some TimeoutError ->
  fails s (t1 ++ [Call c; Call (WaitFor loc "visible" 5000);
                  Log ERROR (TextRepr "Timeout waiting for element: " (snd st))])
        (Screenshot (screenshot_path self)) = None ->
  execute_steps s self (pre ++ st :: post) t0
  = (Raise TimeoutError,
     t1 ++ [Call c; Call (WaitFor loc "visible" 5000);
            Log ERROR (TextRepr "Timeout waiting for element: " (snd st));
            Call (Screenshot (screenshot_path self))]).
Proof.
  intros Hpre Htarget Hc Hwait Hshot.
  rewrite execute_steps_app, Hpre. simpl. unfold bind.
  rewrite (execute_step_timeout s self st t1 c loc Htarget Hc Hwait).
  cbv zeta. rewrite Hshot. now rewrite <- app_assoc.
Qed.

Lemma timeout_stops_the_plan_witness :
  execute_steps hidden_subject_session gmail_agent
    (gmail_plan "joe@example.com" "meeting" "hello") []
  = (Raise TimeoutError,
     [Call (GetByRole "button" "Compose");
      Call (WaitFor (ByRole "button" "Compose") "visible" 5000);
      Call (Click (ByRole "button" "Compose"));
      Log INFO (Text "Clicked button: Compose");
      Call (WaitForTimeout 2000);
      Call (GetByLabel "To");
      Call (WaitFor (ByLabel "To") "visible" 5000);
      Call (Fill (ByLabel "To") "joe@example.com");
      Log INFO (Text "Filled input To with joe@example.com");
      Call (WaitForTimeout 2000);
      Call (GetByLabel "Subject");
      Call (WaitFor (ByLabel "Subject") "visible" 5000);
      Log ERROR (TextRepr "Timeout waiting for element: "
                   {[ "label" := "Subject"; "value" := "meeting" ]});
      Call (Screenshot "error_gmail.png")]).
Proof.
  exact (timeout_stops_the_plan hidden_subject_session gmail_agent
           [ ("click_button", {[ "name" := "Compose"; "role" := "button" ]});
             ("fill_input", {[ "label" := "To"; "value" := "joe@example.com" ]}) ]
           [ ("fill_input", {[ "label" := "Message Body"; "value" := "hello" ]});
             ("click_button", {[ "name" := "Send"; "role" := "button" ]}) ]
           ("fill_input", {[ "label" := "Subject"; "value" := "meeting" ]})
           []
           [Call (GetByRole "button" "Compose");
            Call (WaitFor (ByRole "button" "Compose") "visible" 5000);
            Call (Click (ByRole "button" "Compose"));
            Log INFO (Text "Clicked button: Compose");
            Call (WaitForTimeout 2000);
            Call (GetByLabel "To");
            Call (WaitFor (ByLabel "To") "visible" 5000);
            Call (Fill (ByLabel "To") "joe@example.com");
            Log INFO (Text "Filled input To with joe@example.com");
            Call (WaitForTimeout 2000)]
           (GetByLabel "Subject") (ByLabel "Subject")
           eq_refl eq_refl eq_refl eq_refl eq_refl).
Defined.

(** C7 (as the code has it).  When the element of a step does not become
    visible, the screenshot is attempted; if the screenshot call itself
    raises, that exception is the one raised to the caller, in place of
    the timeout; if it returns, the timeout is raised.  In both cases the
    trace ends with the screenshot. *)
Theorem capture_failure_replaces_timeout
    (s : Session) (self : GenericUIAgent) (pre post : list step) (st : step)
    (t0 t1 : trace) (c : call) (loc : locator) :
  execute_steps s self pre t0 = (Ok tt, t1) ->
  target st = Some (c, loc) ->
  fails s t1 c = None ->
  fails s (t1 ++ [Call c]) (WaitFor loc "visible" 5000) = Some TimeoutError ->
  let t2 := t1 ++ [Call c; Call (WaitFor loc "visible" 5000);
                   Log ERROR (TextRepr "Timeout waiting for element: " (snd st))] in
  execute_steps s self (pre ++ st :: post) t0
  = (Raise match fails s t2 (Screenshot (screenshot_path self)) with
           | None => TimeoutError
           | Some e => e
           end,
     t2 ++ [Call (Screenshot (screenshot_path self))]).
Proof.
  intros Hpre Htarget Hc Hwait t2.
  rewrite execute_steps_app, Hpre. simpl. unfold bind.
  rewrite (execute_step_timeout s self st t1 c loc Htarget Hc Hwait).
  reflexivity.
Qed.

Lemma capture_failure_replaces_timeout_witness :
  execute_steps failing_capture_session gmail_agent
    (gmail_plan "joe@example.com" "meeting" "hello") []
  = (Raise (Error "screenshot failed"),
     [Call (GetByRole "button" "Compose");
      Call (WaitFor (ByRole "button" "Compose") "visible" 5000);
      Log ERROR (TextRepr "Timeout waiting for element: "
                   {[ "name" := "Compose"; "role" := "button" ]});
      Call (Screenshot "error_gmail.png")]).
Proof.
  exact (capture_failure_replaces_timeout failing_capture_session gmail_agent []
           (tail (gmail_plan "joe@example.com" "meeting" "hello"))
           ("click_button", {[ "name" := "Compose"; "role" := "button" ]})
           [] [] (GetByRole "button" "Compose") (ByRole "button" "Compose")
           eq_refl eq_refl eq_refl eq_refl).
Defined.

(** A run in which the wait of the send button times out and the
    screenshot fails: the caller receives the screenshot failure, not the
    timeout. *)
Lemma capture_failure_masks_timeout :
  fails failing_capture_session [Call (GetByRole "button" "Send")]
        (WaitFor (ByRole "button" "Send") "visible" 5000) = Some TimeoutError
  /\ execute_steps failing_capture_session gmail_agent
       [ ("click_button", {[ "name" := "Send"; "role" := "button" ]}) ] []
     = (Raise (Error "screenshot failed"),
        [Call (GetByRole "button" "Send");
         Call (WaitFor (ByRole "button" "Send") "visible" 5000);
         Log ERROR (TextRepr "Timeout waiting for element: "
                      {[ "name" := "Send"; "role" := "button" ]});
         Call (Screenshot "error_gmail.png")])
  /\ fst (execute_steps failing_capture_session gmail_agent
            [ ("click_button", {[ "name" := "Send"; "role" := "button" ]}) ] [])
     <> Raise TimeoutError.
Proof. repeat split; try reflexivity. discriminate. Qed.

(** C9.  When the executor returns from a plan, the operations it
    performed are the blocks of the steps of the plan, in the order of
    the plan, one after the other: for each step its resolution, its wait
    for visibility, its interaction, its log record and the settle delay
    of 2000 ms, all before the resolution of the next step. *)
Theorem executor_follows_plan_order
    (s : Session) (self : GenericUIAgent) (plan : list step) (t t' : trace) :
  execute_steps s self plan t = (Ok tt, t') ->
  exists evs, plan_events plan = Some evs /\ t' = t ++ evs.
Proof. apply execute_steps_Ok. Qed.

Lemma executor_follows_plan_order_witness :
  exists evs,
    plan_events (gmail_plan "joe@example.com" "meeting" "hello") = Some evs
    /\ snd (execute_steps ok_session gmail_agent
              (gmail_plan "joe@example.com" "meeting" "hello") []) = [] ++ evs.
Proof.
  destruct (executor_follows_plan_order ok_session gmail_agent
              (gmail_plan "joe@example.com" "meeting" "hello") []
              (snd (execute_steps ok_session gmail_agent
                      (gmail_plan "joe@example.com" "meeting" "hello") [])))
    as (evs & H1 & H2); [reflexivity|].
  exists evs. split; assumption.
Defined.

(** C4 (as the code has it).  [execute] calls [mock_llm_reason] with the
    content of the page: an instruction the parsing stage rejects is
    rejected after the browser was started and launched, the page opened
    and navigated, its load awaited and its content read, and before any
    element is looked up or touched; when none of these calls raises, the
    error raised is the format error.  An unsupported provider is rejected
    by the constructor, which performs no operation at all. *)
Theorem rejection_points
    (s : Session) (self : GenericUIAgent) (instruction : string)
    (e : exn) (t : trace) :
  parse instruction = Raise e ->
  (exists e' evs,
     execute s self instruction t = (Raise e', t ++ evs)
     /\ forallb (fun ev => negb (touches_element ev)) evs = true)
  /\ (cooperative s ->
      execute s self instruction t = (Raise e, t ++ setup_events self))
  /\ (forall p t0, URLS !! p = None ->
        __init__ p t0 = (Raise (ValueError "Unsupported provider"), t0)).
Proof.
  intros H. split; [now apply execute_unparseable with (e := e)|].
  split; [intros Hs; now apply execute_unparseable_cooperative|].
  intros p t0 Hp. unfold __init__. now rewrite Hp.
Qed.

Lemma rejection_points_witness :
  execute ok_session gmail_agent "please email joe" []
  = (Raise (ValueError INVALID_FORMAT), [] ++ setup_events gmail_agent).
Proof.
  apply (rejection_points ok_session gmail_agent "please email joe"
           (ValueError INVALID_FORMAT) []); [reflexivity|].
  intros h c. reflexivity.
Defined.

(** An instruction outside the grammar, given to an agent for gmail: the
    format error is raised after the navigation and the page query. *)
Lemma unparseable_rejected_after_navigation :
  __init__ "gmail" [] = (Ok gmail_agent, [])
  /\ parse "hello" = Raise (ValueError INVALID_FORMAT)
  /\ execute ok_session gmail_agent "hello" []
     = (Raise (ValueError INVALID_FORMAT),
        [Call Start; Call (Launch false); Call NewPage;
         Call (Goto "https://mail.google.com");
         Log INFO (Text "Navigated to gmail at https://mail.google.com");
         Call (WaitForLoadState "networkidle"); Call Content; Call Stop])
  /\ snd (execute ok_session gmail_agent "hello" []) <> [].
Proof. repeat split; try reflexivity. discriminate. Qed.

End ExecutorClaims.

(** ** Further properties of the parsing stage *)

Module LineFacts.
Import Re ReFacts PatternFacts ParseFacts.

Lemma greedy_ext {R} (k1 k2 : nat -> option R) min n :
  (forall i, i <= n -> k1 i = k2 i) -> greedy k1 min n = greedy k2 min n.
Proof.
  induction n as [|n IH]; intros H; simpl.
  - now rewrite (H 0) by lia.
  - rewrite (H (S n)) by lia. rewrite IH by (intros; apply H; lia). reflexivity.
Qed.

Lemma greedy_fmap {R R'} (f : R -> R') (k : nat -> option R) min n :
  greedy (fun i => f <$> k i) min n = f <$> greedy k min n.
Proof.
  induction n as [|n IH]; simpl.
  - destruct (Nat.ltb 0 min); [reflexivity|]. now destruct (k 0).
  - destruct (Nat.ltb (S n) min); [reflexivity|]. destruct (k (S n)); [reflexivity|].
    exact IH.
Qed.

Lemma span_app_rejected a s c rest :
  accepts a c = false -> span a (s ++ c :: rest) = span a s.
Proof.
  intros Hc. induction s as [|x s IH]; simpl; [now rewrite Hc|].
  now rewrite IH.
Qed.

(** A run never goes past a character that the pattern does not accept:
    the text from that character on only follows the marks and the rest. *)
Lemma run_cut c rest ops :
  Forall (rejected_by c) ops -> forall s m,
  run ops (s ++ c :: rest) (extend_marks (c :: rest) m)
  = (fun r => (extend_marks (c :: rest) (fst r), snd r ++ c :: rest))
    <$> run ops s m.
Proof.
  induction 1 as [|o ops Ho Hops IH]; intros s m; [reflexivity|].
  destruct o as [a|min a|i]; simpl in Ho.
  - destruct s as [|x s]; simpl; [now rewrite Ho|].
    destruct (accepts a x); [apply IH|reflexivity].
  - cbn [run]. rewrite span_app_rejected by assumption.
    rewrite <- greedy_fmap. apply greedy_ext. intros j Hj.
    pose proof (span_le a s).
    rewrite drop_app_le by lia. apply IH.
  - cbn [run]. apply (IH s ((i, s) :: m)).
Qed.

Lemma mark_at_extend tl m i :
  mark_at (extend_marks tl m) i = (fun x => x ++ tl) <$> mark_at m i.
Proof.
  unfold mark_at, extend_marks. induction m as [|[j x] m IH]; simpl; [reflexivity|].
  destruct (Nat.eqb j i); [reflexivity|exact IH].
Qed.

Lemma group_extend tl m g : group (extend_marks tl m) g = group m g.
Proof.
  unfold group. rewrite !mark_at_extend.
  destruct (mark_at m (2 * (g - 1))) as [x|]; [|reflexivity].
  destruct (mark_at m (2 * (g - 1) + 1)) as [y|]; [|reflexivity].
  simpl. rewrite !length_app.
  replace (length x + length tl - (length y + length tl))
    with (length x - length y) by lia.
  apply take_app_le. lia.
Qed.

Lemma PATTERN_rejects_newline : Forall (rejected_by Char.newline) PATTERN.
Proof. repeat constructor. Qed.

End LineFacts.

Module GreedyFacts.
Import Re ReFacts PatternFacts ParseFacts.

Lemma forallb_not_In {A} (p : A -> bool) l x :
  forallb p l = true -> p x = false -> ~ In x l.
Proof.
  intros Hl Hx Hin. rewrite forallb_forall in Hl. specialize (Hl x Hin). congruence.
Qed.

(** The recipient of a text of the grammar is determined by the text. *)
Lemma address_prefix_unique a a' u u' :
  address_shape a -> address_shape a' ->
  a ++ chars " about " ++ u = a' ++ chars " about " ++ u' -> a = a'.
Proof.
  intros (l & d & -> & _ & Hl & _ & Hd) (l' & d' & -> & _ & Hl' & _ & Hd') E.
  rewrite <- !app_assoc in E. simpl in E.
  assert (l = l') as <-.
  { eapply (first_occurrence_unique "@"%char); [| |exact E];
      eapply forallb_not_In; eauto. }
  apply app_inv_head in E. injection E as E.
  assert (d = d') as <-; [|reflexivity].
  eapply (first_occurrence_unique " "%char); [| |exact E];
    eapply forallb_not_In; eauto.
Qed.

Lemma run_tail3_is_Some b r m :
  b <> [] -> forallb not_newline b = true ->
  is_Some (run tail3 (b ++ chars "'" ++ r) m).
Proof.
  intros Hb Hbc. apply nonempty_length in Hb.
  rewrite tail3_eq, run_mark.
  apply run_repeat_is_Some; [assumption..|].
  rewrite run_mark, run_literal. simpl. eauto.
Qed.

(** The body found is the longest that a closing quote follows. *)
Lemma run_tail3_max x m m' r :
  run tail3 x m = Some (m', r) ->
  exists body,
    x = body ++ chars "'" ++ r
    /\ forall b' r', x = b' ++ chars "'" ++ r' ->
                     forallb not_newline b' = true -> length b' <= length body.
Proof.
  rewrite tail3_eq, run_mark. cbn [run]. intros H.
  apply greedy_Some in H as (i & Hi & Hk & Hmax).
  pose proof (span_le ANY x) as Hspan.
  apply (run_literal_inv "'" []) in Hk as (s' & Hs' & Hk).
  simpl in Hk. injection Hk as _ <-.
  exists (take i x). split.
  - rewrite <- Hs'. symmetry. apply take_drop.
  - intros b' r' Hx Hb'. rewrite length_take.
    destruct (Nat.le_gt_cases (length b') i) as [Hle|Hgt]; [lia|].
    exfalso.
    assert (Hj : length b' <= span ANY x)
      by (rewrite Hx; now apply span_app_ge).
    specialize (Hmax (length b') (conj Hgt Hj)).
    rewrite Hx, drop_app_length in Hmax.
    rewrite (run_literal "'" []) in Hmax. discriminate.
Qed.

(** The subject found is the longest that the words before the body and
    a quoted body follow. *)
Lemma run_tail2_max x m m' r :
  run tail2 x m = Some (m', r) ->
  exists subject t,
    x = subject ++ chars " saying '" ++ t
    /\ run tail3 t ((3, chars " saying '" ++ t) :: (2, x) :: m) = Some (m', r)
    /\ forall s' b' r',
         x = s' ++ chars " saying '" ++ b' ++ chars "'" ++ r' ->
         forallb not_newline s' = true ->
         b' <> [] -> forallb not_newline b' = true ->
         length s' <= length subject.
Proof.
  rewrite tail2_eq, run_mark. cbn [run]. intros H.
  apply greedy_Some in H as (i & Hi & Hk & Hmax).
  pose proof (span_le ANY x) as Hspan.
  apply (run_literal_inv " saying '" tail3) in Hk as (t & Ht & Hk).
  exists (take i x), t. split; [|split].
  - rewrite <- Ht. symmetry. apply take_drop.
  - now rewrite Ht in Hk.
  - intros s' b' r' Hx Hs' Hb' Hbc'. rewrite length_take.
    destruct (Nat.le_gt_cases (length s') i) as [Hle|Hgt]; [lia|].
    exfalso.
    assert (Hj : length s' <= span ANY x)
      by (rewrite Hx; now apply span_app_ge).
    specialize (Hmax (length s') (conj Hgt Hj)).
    rewrite Hx, drop_app_length in Hmax.
    rewrite (run_literal " saying '" tail3) in Hmax.
    destruct (run_tail3_is_Some b' r'
                ((3, chars " saying '" ++ b' ++ chars "'" ++ r')
                 :: (2, s' ++ chars " saying '" ++ b' ++ chars "'" ++ r') :: m)
                Hb' Hbc') as [res Hres].
    rewrite <- Hx in Hres. congruence.
Qed.

Lemma run_tail1_step x m res :
  run tail1 x m = Some res ->
  exists a x2,
    x = a ++ chars " about " ++ x2
    /\ address_shape a
    /\ run tail2 x2 ((1, chars " about " ++ x2) :: (0, x) :: m) = Some res.
Proof.
  rewrite tail1_eq, run_mark. intros H.
  apply run_repeat_inv in H as (l & s1 & -> & Hl1 & Hl & H).
  apply run_at_inv in H as (c & s2 & -> & Hc & H).
  apply Ascii.eqb_eq in Hc as ->.
  apply run_repeat_inv in H as (d & s3 & -> & Hd1 & Hd & H).
  rewrite run_mark in H.
  apply (run_literal_inv " about " tail2) in H as (x2 & -> & H).
  exists (l ++ "@"%char :: d), x2.
  split; [now rewrite <- app_assoc|].
  split; [exists l, d; rewrite <- !nonempty_length; auto|].
  exact H.
Qed.

End GreedyFacts.

Section ParsingExtras.
Import Re ReFacts PatternFacts ParseFacts LineFacts GreedyFacts.

(** X1.  Only the first line of the instruction is read: what follows a
    newline changes neither the failure nor the three values returned. *)
Theorem parse_reads_first_line (line more : string) :
  parse (line +:+ String Char.newline more) = parse line.
Proof.
  unfold parse, re_match.
  rewrite lower_app, chars_app. cbn [lower list_ascii_of_string].
  change (Char.lower Char.newline) with Char.newline.
  pose proof (run_cut Char.newline (chars (lower more)) PATTERN
                PATTERN_rejects_newline (chars (lower line)) []) as H.
  cbn [extend_marks map] in H. rewrite H.
  destruct (run PATTERN (chars (lower line)) []) as [[m r]|]; [|reflexivity].
  simpl. now rewrite !group_extend.
Qed.

Lemma parse_Ok_run instruction to_email subject body :
  parse instruction = Ok (to_email, subject, body) ->
  exists m r,
    run PATTERN (chars (lower instruction)) [] = Some (m, r)
    /\ chars to_email = group m 1 /\ chars subject = group m 2
    /\ chars body = group m 3.
Proof.
  unfold parse, re_match.
  destruct (run PATTERN (chars (lower instruction)) []) as [[m r]|]; [|discriminate].
  simpl. intros [= <- <- <-]. exists m, r.
  now rewrite !list_ascii_of_string_of_list_ascii.
Qed.

(** X2.  When the lowercased instruction can be read as a text of the
    grammar in several ways, the parsing stage returns the reading with
    the longest subject and, for that subject, the longest body; the
    recipient is the same in every reading. *)
Theorem parse_prefers_longest
    (instruction to_email subject body : string)
    (a' s' b' rest' : list ascii) :
  parse instruction = Ok (to_email, subject, body) ->
  chars (lower instruction) = instruction_text a' s' b' ++ rest' ->
  address_shape a' ->
  forallb not_newline s' = true ->
  b' <> [] -> forallb not_newline b' = true ->
  a' = chars to_email
  /\ length s' <= length (chars subject)
  /\ (s' = chars subject -> length b' <= length (chars body)).
Proof.
  intros Hp Hx Ha' Hs' Hb' Hbc'.
  apply parse_Ok_run in Hp as (m & r & Hrun & -> & -> & ->).
  rewrite PATTERN_eq in Hrun.
  apply run_literal_inv in Hrun as (x0 & Hx0 & Hrun).
  apply run_tail1_step in Hrun as (a & x2 & -> & Ha & Hrun).
  apply run_tail2_max in Hrun as (subj & t & -> & Hrun & Hmax2).
  pose proof Hrun as Hinv.
  apply run_tail3_inv in Hinv as (body0 & Ht & _ & _ & ->).
  apply run_tail3_max in Hrun as (body1 & Ht1 & Hmax3).
  assert (body1 = body0) as ->
    by (apply (app_inv_tail (chars "'" ++ r)); congruence).
  assert (G1 : group
                 ((5, chars "'" ++ r) :: (4, t)
                  :: (3, chars " saying '" ++ t)
                  :: (2, subj ++ chars " saying '" ++ t)
                  :: (1, chars " about " ++ subj ++ chars " saying '" ++ t)
                  :: (0, a ++ chars " about " ++ subj ++ chars " saying '" ++ t)
                  :: []) 1 = a) by apply take_length_suffix.
  assert (G2 : group
                 ((5, chars "'" ++ r) :: (4, t)
                  :: (3, chars " saying '" ++ t)
                  :: (2, subj ++ chars " saying '" ++ t)
                  :: (1, chars " about " ++ subj ++ chars " saying '" ++ t)
                  :: (0, a ++ chars " about " ++ subj ++ chars " saying '" ++ t)
                  :: []) 2 = subj) by apply take_length_suffix.
  assert (G3 : group
                 ((5, chars "'" ++ r) :: (4, t)
                  :: (3, chars " saying '" ++ t)
                  :: (2, subj ++ chars " saying '" ++ t)
                  :: (1, chars " about " ++ subj ++ chars " saying '" ++ t)
                  :: (0, a ++ chars " about " ++ subj ++ chars " saying '" ++ t)
                  :: []) 3 = body0).
  { unfold group, mark_at. simpl List.find. simpl fmap. cbv beta iota.
    rewrite Ht. apply take_length_suffix. }
  rewrite G1, G2, G3. clear G1 G2 G3.
  rewrite Hx0 in Hx. unfold instruction_text in Hx.
  rewrite <- !app_assoc in Hx. apply app_inv_head in Hx.
  assert (a = a') as <- by (eapply address_prefix_unique; eauto).
  do 2 apply app_inv_head in Hx.
  split; [reflexivity|]. split.
  - eapply Hmax2; eauto.
  - intros ->. do 2 apply app_inv_head in Hx.
    eapply Hmax3; eauto.
Qed.

Lemma parse_prefers_longest_witness :
  chars "a@b" = chars "a@b"
  /\ length (chars "x") <= length (chars "x saying 'y'")
  /\ (chars "x" = chars "x saying 'y'"
      -> length (chars "y") <= length (chars "z")).
Proof.
  apply (parse_prefers_longest
           "send email to a@b about x saying 'y' saying 'z'"
           "a@b" "x saying 'y'" "z"
           (chars "a@b") (chars "x") (chars "y") (chars " saying 'z'"));
    try reflexivity; try discriminate.
  exists (chars "a"), (chars "b"). repeat split; discriminate.
Defined.

Lemma lower_char_idempotent c : Char.lower (Char.lower c) = Char.lower c.
Proof. each_char c. Qed.

Lemma lower_idempotent str : lower (lower str) = lower str.
Proof.
  induction str as [|c str IH]; simpl; [reflexivity|].
  now rewrite lower_char_idempotent, IH.
Qed.

Lemma map_app_fixed {A} (f : A -> A) x y :
  map f (x ++ y) = x ++ y -> map f x = x /\ map f y = y.
Proof. rewrite map_app. apply app_inj_1. apply length_map. Qed.

Lemma chars_inj a b : chars a = chars b -> a = b.
Proof.
  intros H. apply (f_equal string_of_list_ascii) in H.
  now rewrite !string_of_list_ascii_of_string in H.
Qed.

(** X3.  The three values the parsing stage returns hold no capital
    letter: each of them is its own lowercase form. *)
Theorem parse_values_are_lowercase
    (instruction to_email subject body : string) :
  parse instruction = Ok (to_email, subject, body) ->
  lower to_email = to_email /\ lower subject = subject /\ lower body = body.
Proof.
  intros H. apply parse_Ok_inv in H as (rest & E & _).
  assert (Hfix : map Char.lower (chars (lower instruction)) = chars (lower instruction))
    by now rewrite <- chars_lower, lower_idempotent.
  rewrite E in Hfix. unfold instruction_text in Hfix.
  rewrite <- !app_assoc in Hfix.
  apply map_app_fixed in Hfix as (_ & Hfix).
  apply map_app_fixed in Hfix as (Ha & Hfix).
  apply map_app_fixed in Hfix as (_ & Hfix).
  apply map_app_fixed in Hfix as (Hs & Hfix).
  apply map_app_fixed in Hfix as (_ & Hfix).
  apply map_app_fixed in Hfix as (Hb & _).
  rewrite <- chars_lower in Ha, Hs, Hb.
  repeat split; now apply chars_inj.
Qed.

Lemma parse_values_are_lowercase_witness :
  lower "joe@example.com" = "joe@example.com"%string
  /\ lower "meeting" = "meeting"%string
  /\ lower "hello from automation" = "hello from automation"%string.
Proof.
  apply (parse_values_are_lowercase
           "Send email to Joe@Example.com about Meeting saying 'Hello from automation'");
    reflexivity.
Defined.

(** X4.  The parsing stage does not see letter case: two instructions
    with the same lowercase form are parsed alike, and an instruction is
    parsed like its lowercase form. *)
Theorem parse_ignores_case :
  (forall i1 i2, lower i1 = lower i2 -> parse i1 = parse i2)
  /\ (forall instruction, parse (lower instruction) = parse instruction).
Proof.
  split.
  - intros i1 i2 H. unfold parse. now rewrite H.
  - intros instruction. unfold parse. now rewrite lower_idempotent.
Qed.

(** X5.  The recipient returned holds exactly one at sign and no space,
    the body returned is not empty, and neither the subject nor the body
    returned holds a newline. *)
Theorem parse_values_shape
    (instruction to_email subject body : string) :
  parse instruction = Ok (to_email, subject, body) ->
  count_occ ascii_dec (chars to_email) "@"%char = 1
  /\ ~ In " "%char (chars to_email)
  /\ body <> ""%string
  /\ ~ In Char.newline (chars subject)
  /\ ~ In Char.newline (chars body).
Proof.
  intros H.
  apply parse_Ok_inv in H as (rest & _ & (l & d & -> & _ & Hl & _ & Hd) & Hs & Hne & Hb).
  assert (Hcount : forall w, forallb address_char w = true ->
                             count_occ ascii_dec w "@"%char = 0).
  { intros w Hw. apply count_occ_not_In. now apply (forallb_not_In address_char). }
  split; [|split; [|split; [exact Hne|split]]].
  - rewrite count_occ_app. simpl. rewrite !Hcount by assumption. reflexivity.
  - intros [Hin|Hin]%in_app_or.
    + now apply (forallb_not_In address_char l " "%char Hl).
    + destruct Hin as [Hin|Hin]; [discriminate|].
      now apply (forallb_not_In address_char d " "%char Hd).
  - now apply (forallb_not_In not_newline).
  - now apply (forallb_not_In not_newline).
Qed.

Lemma parse_values_shape_witness :
  count_occ ascii_dec (chars "a@b") "@"%char = 1
  /\ ~ In " "%char (chars "a@b")
  /\ "z"%string <> ""%string
  /\ ~ In Char.newline (chars "x saying 'y'")
  /\ ~ In Char.newline (chars "z").
Proof.
  apply (parse_values_shape "send email to a@b about x saying 'y' saying 'z'").
  reflexivity.
Defined.

(** X6.  Every instruction whose lowercase form starts with a text of the
    grammar is parsed, and the three values returned are the parts of the
    lowercase form at the places of some such text. *)
Theorem parse_accepts_grammar (instruction : string) :
  grammar_prefix (chars (lower instruction)) ->
  exists to_email subject body rest,
    parse instruction = Ok (to_email, subject, body)
    /\ chars (lower instruction)
       = instruction_text (chars to_email) (chars subject) (chars body) ++ rest.
Proof. apply parse_total_on_grammar. Qed.

Lemma parse_accepts_grammar_witness :
  exists to_email subject body rest,
    parse "SEND EMAIL TO a@b ABOUT x SAYING 'it's late" = Ok (to_email, subject, body)
    /\ chars (lower "SEND EMAIL TO a@b ABOUT x SAYING 'it's late")
       = instruction_text (chars to_email) (chars subject) (chars body) ++ rest.
Proof.
  apply (parse_accepts_grammar "SEND EMAIL TO a@b ABOUT x SAYING 'it's late").
  exists (chars "a@b"), (chars "x"), (chars "it"), (chars "s late").
  split; [reflexivity|].
  split; [exists (chars "a"), (chars "b"); repeat split; discriminate|].
  repeat split; discriminate.
Defined.

End ParsingExtras.

(** ** Further properties of mock_llm_reason and of the constructor *)

Module OutcomeFacts.
Import ParseFacts CompilerFacts.

Lemma mock_llm_reason_compile_error instruction html_content p t :
  mock_llm_reason instruction html_content p t
  = (Raise (compile_error instruction p), t).
Proof.
  unfold compile_error.
  destruct (parse instruction) as [g|e] eqn:Hg.
  - destruct (String.eqb_spec p "gmail") as [->|H1];
      [now apply mock_llm_reason_supported with (g := g); auto|].
    destruct (String.eqb_spec p "outlook") as [->|H2];
      [now apply mock_llm_reason_supported with (g := g); auto|].
    unfold mock_llm_reason, bind, lift. rewrite Hg.
    destruct g as [[to_email subject] body].
    now rewrite LABELS_other by assumption.
  - unfold mock_llm_reason, bind, lift. now rewrite Hg.
Qed.

Lemma URLS_inv p u :
  URLS !! p = Some u ->
  (p = "gmail"%string /\ u = "https://mail.google.com"%string)
  \/ (p = "outlook"%string /\ u = "https://outlook.live.com/mail/"%string).
Proof.
  unfold URLS.
  destruct (decide (p = "gmail"%string)) as [->|H1].
  - rewrite lookup_insert_eq. intros [= <-]. now left.
  - rewrite lookup_insert_ne by congruence.
    destruct (decide (p = "outlook"%string)) as [->|H2].
    + rewrite lookup_singleton_eq. intros [= <-]. now right.
    + rewrite lookup_singleton_ne by congruence. discriminate.
Qed.

(** What the constructor returns. *)
Lemma init_Ok_inv p t a t' :
  __init__ p t = (Ok a, t') ->
  t' = t /\ provider a = p /\ URLS !! p = Some (url a)
  /\ (p = "gmail"%string \/ p = "outlook"%string).
Proof.
  unfold __init__. destruct (URLS !! p) as [u|] eqn:Hu; [|discriminate].
  destruct (URLS_inv p u Hu) as [[-> ->]|[-> ->]]; simpl;
    intros [= <- <-]; auto.
Qed.

End OutcomeFacts.

Section CompilerExtras.
Import ParseFacts CompilerFacts OutcomeFacts.

(** X7.  [mock_llm_reason] always raises, without logging: the format
    error when the instruction is not parsed, whatever the provider; else
    the unsupported-provider error for a provider other than gmail and
    outlook; else [KeyError] from the label check. *)
Theorem mock_llm_reason_outcome
    (instruction html_content p : string) (t : trace) :
  mock_llm_reason instruction html_content p t
  = (Raise (compile_error instruction p), t).
Proof. apply mock_llm_reason_compile_error. Qed.

(** X8.  The page given to [mock_llm_reason] has no influence on what it
    does: with two pages the result and the trace are the same, and the
    trace is the one it started from. *)
Theorem mock_llm_reason_ignores_page
    (instruction html1 html2 p : string) (t : trace) :
  mock_llm_reason instruction html1 p t = mock_llm_reason instruction html2 p t
  /\ snd (mock_llm_reason instruction html1 p t) = t.
Proof. now rewrite !mock_llm_reason_compile_error. Qed.

(** X9.  The constructor returns an agent exactly for gmail and outlook,
    with the address of the provider; for any other provider it raises
    the unsupported-provider error.  Either way it performs no operation,
    and an agent it returns has the provider it was given. *)
Theorem constructor_accepts_exactly_supported (p : string) (t : trace) :
  (p = "gmail"%string \/ p = "outlook"%string ->
   exists u, URLS !! p = Some u
             /\ __init__ p t = (Ok {| provider := p; url := u |}, t))
  /\ (p <> "gmail"%string -> p <> "outlook"%string ->
      __init__ p t = (Raise (ValueError "Unsupported provider"), t))
  /\ (forall a t', __init__ p t = (Ok a, t') ->
        t' = t /\ provider a = p /\ URLS !! p = Some (url a)).
Proof.
  split; [|split].
  - intros [-> | ->]; eexists; split; reflexivity.
  - intros H1 H2. unfold __init__, URLS.
    rewrite lookup_insert_ne by congruence.
    now rewrite lookup_singleton_ne by congruence.
  - intros a t' H. apply init_Ok_inv in H. tauto.
Qed.

End CompilerExtras.

(** ** Further properties of the executor *)

Module RunFacts.
Import CompilerFacts OutcomeFacts ExecutorFacts.

Section WithSession.
Variable s : Session.
Variable self : GenericUIAgent.

Ltac case_calls Hno :=
  repeat match goal with
         | |- context [fails s ?h ?c] =>
             let E := fresh "E" in
             destruct (fails s h c) as [[]|] eqn:E;
             try (exfalso; exact (Hno _ _ E))
         end.

Ltac open_step :=
  unfold execute_step, try_except_timeout, bind, getitem, perform, log, ret, raise.

(** Without a timeout, a step takes no screenshot and logs no error. *)
Lemma execute_step_no_timeout st t r t' :
  never_times_out s ->
  execute_step s self st t = (r, t') ->
  exists evs,
    t' = t ++ evs
    /\ forallb (fun ev => negb (is_screenshot ev) && negb (is_error_log ev)) evs = true
    /\ r <> Raise TimeoutError.
Proof.
  intros Hno. destruct st as [action params]. open_step.
  destruct (String.eqb action "click_button");
    [|destruct (String.eqb action "fill_input")];
    repeat match goal with
           | |- context [params !! ?k] => destruct (params !! k)
           end;
    case_calls Hno; intros [= <- <-]; rewrite <- ?app_assoc;
    eexists; (split; [try reflexivity; symmetry; apply app_nil_r|]);
    (split; [reflexivity|discriminate]).
Qed.

(** A step that raises the timeout has ended with the screenshot. *)
Lemma execute_step_timeout_last st t t' :
  execute_step s self st t = (Raise TimeoutError, t') ->
  exists evs, t' = t ++ evs ++ [Call (Screenshot (screenshot_path self))].
Proof.
  destruct st as [action params]. open_step. unfold screenshot_path.
  destruct (String.eqb action "click_button");
    [|destruct (String.eqb action "fill_input")];
    repeat match goal with
           | |- context [params !! ?k] => destruct (params !! k)
           end;
    repeat match goal with
           | |- context [fails s ?h ?c] => destruct (fails s h c) as [[]|] eqn:?
           end;
    try discriminate; intros [= <-]; rewrite <- ?app_assoc;
    match goal with
    | |- exists evs, ?t0 ++ ?l = ?t0 ++ evs ++ [?x] =>
        exists (removelast l); reflexivity
    end.
Qed.

(** A plan that raises has completed the steps before one step, and
    raised in that step. *)
Lemma execute_steps_Raise_inv plan : forall t e t',
  execute_steps s self plan t = (Raise e, t') ->
  exists pre st post evs,
    plan = pre ++ st :: post
    /\ plan_events pre = Some evs
    /\ execute_step s self st (t ++ evs) = (Raise e, t').
Proof.
  induction plan as [|st plan IH]; cbn [execute_steps]; intros t e t'.
  - discriminate.
  - unfold bind. destruct (execute_step s self st t) as [[[]|e1] t1] eqn:E1.
    + intros E2. apply IH in E2 as (pre & st' & post & evs & -> & Hpre & Hst).
      apply execute_step_Ok in E1 as (block & Hblock & ->).
      exists (st :: pre), st', post, (block ++ evs).
      split; [reflexivity|]. split.
      * cbn [plan_events]. now rewrite Hblock, Hpre.
      * now rewrite app_assoc.
    + intros [= <- <-]. exists [], st, plan, [].
      split; [reflexivity|]. split; [reflexivity|]. now rewrite app_nil_r.
Qed.

End WithSession.

End RunFacts.

Section ExecutorExtras.
Import CompilerFacts OutcomeFacts ExecutorFacts RunFacts.

(** X10.  An agent returned by the constructor, run in a session in
    which no call raises on an instruction the parsing stage accepts:
    [execute] starts and launches the browser, opens and loads the page,
    reads its content, leaves the [with] block and raises [KeyError]; no
    step is carried out and the browser is not closed. *)
Theorem constructed_agent_stops_at_label_check
    (s : Session) (p instruction : string) (t t' : trace)
    (a : GenericUIAgent) (to_email subject body : string) :
  cooperative s ->
  __init__ p t = (Ok a, t') ->
  parse instruction = Ok (to_email, subject, body) ->
  execute s a instruction t'
  = (Raise (KeyError "to"), t' ++ setup_events a).
Proof.
  intros Hs Hinit Hparse.
  apply init_Ok_inv in Hinit as (_ & Hp & _ & Hsup).
  unfold execute, with_playwright, bind, perform, page_content, log.
  rewrite !Hs.
  rewrite (mock_llm_reason_supported _ _ _ _ _ Hparse) by now rewrite Hp.
  rewrite Hs. now rewrite <- !app_assoc.
Qed.

Lemma constructed_agent_stops_at_label_check_witness :
  execute ok_session gmail_agent
    "send email to joe@example.com about Meeting saying 'Hello from automation'" []
  = (Raise (KeyError "to"), [] ++ setup_events gmail_agent).
Proof.
  apply (constructed_agent_stops_at_label_check ok_session "gmail"
           "send email to joe@example.com about Meeting saying 'Hello from automation'"
           [] [] gmail_agent "joe@example.com" "meeting" "hello from automation");
    try reflexivity.
  intros h c. reflexivity.
Defined.

(** X11.  Whatever the session, the agent and the instruction, [execute]
    raises; it looks up and touches no element of the page and does not
    close the browser; its first operation is the start of the driver,
    and when that start did not raise, its last operation is the exit of
    the [with] block. *)
Theorem execute_never_acts
    (s : Session) (self : GenericUIAgent) (instruction : string) (t : trace) :
  exists e evs,
    execute s self instruction t = (Raise e, t ++ evs)
    /\ forallb (fun ev => negb (touches_element ev) && negb (is_close ev)) evs = true
    /\ hd_error evs = Some (Call Start)
    /\ (fails s t Start = None -> List.last evs (Call Start) = Call Stop).
Proof.
  unfold execute, with_playwright, bind, perform, page_content, log.
  repeat first
    [ rewrite mock_llm_reason_compile_error
    | match goal with
      | |- context [fails s ?t0 ?c] => destruct (fails s t0 c) eqn:?
      end ];
    rewrite <- ?app_assoc; simpl; do 2 eexists;
    (split; [reflexivity|]); (split; [reflexivity|]);
    (split; [reflexivity|]); intros; (reflexivity || congruence).
Qed.

(** X12.  In a session in which no call raises the timeout, the executor
    takes no screenshot and logs no error, whatever the plan and however
    the run ends, and the run does not end with the timeout. *)
Theorem diagnostics_only_on_timeout
    (s : Session) (self : GenericUIAgent) (plan : list step)
    (t t' : trace) (r : res unit) :
  never_times_out s ->
  execute_steps s self plan t = (r, t') ->
  exists evs,
    t' = t ++ evs
    /\ forallb (fun ev => negb (is_screenshot ev) && negb (is_error_log ev)) evs = true
    /\ r <> Raise TimeoutError.
Proof.
  intros Hno. revert t. induction plan as [|st plan IH]; cbn [execute_steps]; intros t.
  - intros [= <- <-]. exists []. now rewrite app_nil_r.
  - unfold bind. destruct (execute_step s self st t) as [[[]|e1] t1] eqn:E1.
    + intros E2.
      apply (execute_step_no_timeout s self) in E1 as (evs1 & -> & H1 & _); [|exact Hno].
      apply IH in E2 as (evs2 & -> & H2 & Hr).
      exists (evs1 ++ evs2). rewrite app_assoc, forallb_app, H1, H2. auto.
    + intros [= <- <-].
      now apply (execute_step_no_timeout s self) in E1.
Qed.

Lemma diagnostics_only_on_timeout_witness :
  exists evs,
    snd (execute_steps click_rejected_session gmail_agent
           (gmail_plan "joe@example.com" "meeting" "hello") []) = [] ++ evs
    /\ forallb (fun ev => negb (is_screenshot ev) && negb (is_error_log ev)) evs = true
    /\ fst (execute_steps click_rejected_session gmail_agent
              (gmail_plan "joe@example.com" "meeting" "hello") [])
       <> Raise TimeoutError.
Proof.
  apply (diagnostics_only_on_timeout click_rejected_session gmail_agent
           (gmail_plan "joe@example.com" "meeting" "hello") []).
  - intros h c. simpl. destruct c; discriminate.
  - reflexivity.
Defined.

(** X13.  A run of a plan that ends with the timeout has the screenshot
    [error_<provider>.png] as its last operation. *)
Theorem timeout_ends_with_screenshot
    (s : Session) (self : GenericUIAgent) (plan : list step) (t t' : trace) :
  execute_steps s self plan t = (Raise TimeoutError, t') ->
  exists evs, t' = t ++ evs ++ [Call (Screenshot (screenshot_path self))].
Proof.
  intros H.
  apply execute_steps_Raise_inv in H as (pre & st & post & evs & _ & _ & H).
  apply execute_step_timeout_last in H as (evs' & ->).
  exists (evs ++ evs'). now rewrite <- !app_assoc.
Qed.

Lemma timeout_ends_with_screenshot_witness :
  exists evs,
    snd (execute_steps hidden_subject_session gmail_agent
           (gmail_plan "joe@example.com" "meeting" "hello") [])
    = [] ++ evs ++ [Call (Screenshot (screenshot_path gmail_agent))].
Proof.
  apply (timeout_ends_with_screenshot hidden_subject_session gmail_agent
           (gmail_plan "joe@example.com" "meeting" "hello") []).
  reflexivity.
Defined.

(** X14.  A run of a plan that raises has carried out, block after
    block, the steps before one step of the plan, and has raised within
    that step: the trace holds nothing of the steps after it. *)
Theorem failure_stops_at_first_failing_step
    (s : Session) (self : GenericUIAgent) (plan : list step)
    (t t' : trace) (e : exn) :
  execute_steps s self plan t = (Raise e, t') ->
  exists pre st post evs,
    plan = pre ++ st :: post
    /\ plan_events pre = Some evs
    /\ execute_step s self st (t ++ evs) = (Raise e, t').
Proof. apply execute_steps_Raise_inv. Qed.

Lemma failure_stops_at_first_failing_step_witness :
  exists pre st post evs,
    gmail_plan "joe@example.com" "meeting" "hello" = pre ++ st :: post
    /\ plan_events pre = Some evs
    /\ execute_step click_rejected_session gmail_agent st ([] ++ evs)
       = (Raise (Error "element detached"),
          [Call (GetByRole "button" "Compose");
           Call (WaitFor (ByRole "button" "Compose") "visible" 5000);
           Call (Click (ByRole "button" "Compose"))]).
Proof.
  apply (failure_stops_at_first_failing_step click_rejected_session gmail_agent
           (gmail_plan "joe@example.com" "meeting" "hello") []).
  reflexivity.
Defined.

(** X15.  In a session in which no call raises, the executor carries a
    plan out to the end exactly when every click step has its role and
    name entries and every fill step its label and value entries; a step
    of any other kind only waits the settle delay. *)
Theorem cooperative_run_completes_iff
    (s : Session) (self : GenericUIAgent) (plan : list step) (t : trace) :
  cooperative s ->
  ((exists t', execute_steps s self plan t = (Ok tt, t'))
   <-> is_Some (plan_events plan)).
Proof.
  intros Hs. split.
  - intros (t' & H). apply execute_steps_Ok in H as (evs & H & _). eauto.
  - intros (evs & H). exists (t ++ evs). now apply execute_steps_cooperative.
Qed.

Lemma cooperative_run_completes_iff_witness :
  (exists t', execute_steps ok_session gmail_agent
                (gmail_plan "joe@example.com" "meeting" "hello") [] = (Ok tt, t'))
  <-> is_Some (plan_events (gmail_plan "joe@example.com" "meeting" "hello")).
Proof.
  apply (cooperative_run_completes_iff ok_session gmail_agent
           (gmail_plan "joe@example.com" "meeting" "hello") []).
  intros h c. reflexivity.
Defined.

End ExecutorExtras.

(** ** The command line: properties *)

Section CommandLineExtras.
Import CompilerFacts OutcomeFacts ExecutorFacts.

(** X16.  The third word of the command line is not read: the script
    behaves the same whatever stands where the provider flag is expected;
    with exactly three words the provider is gmail. *)
Theorem main_ignores_flag
    (s : Session) (prog instruction flag1 flag2 : string)
    (rest : list string) (t : trace) :
  main s (prog :: instruction :: flag1 :: rest) t
  = main s (prog :: instruction :: flag2 :: rest) t
  /\ main s [prog; instruction; flag1] t
     = match execute s gmail_agent instruction t with
       | (Ok _, t') => (Finished, [], t')
       | (Raise e, t') => (Uncaught e, [], t')
       end.
Proof. split; reflexivity. Qed.

(** X17.  The script never reaches its end: with fewer than three words
    it prints the usage line and exits with status 1 without any
    operation, also when the instruction is given and only the provider
    is left out; otherwise it ends with an exception that nothing
    catches. *)
Theorem main_never_finishes (s : Session) (argv : list string) (t : trace) :
  (length argv < 3 /\ main s argv t = (SystemExit 1, [USAGE], t))
  \/ (3 <= length argv /\ exists e t', main s argv t = (Uncaught e, [], t')).
Proof.
  unfold main. destruct (Nat.ltb_spec (length argv) 3) as [Hlt|Hge].
  - left. split; [exact Hlt|reflexivity].
  - right. split; [exact Hge|]. unfold bind.
    destruct (__init__ _ t) as [[a|e] t1]; [|eauto].
    destruct (execute_never_completes s a (nth 1 argv ""%string) t1) as [e He].
    destruct (execute s a (nth 1 argv ""%string) t1) as [r t2].
    simpl in He. subst r. eauto.
Qed.

(** X18.  A provider other than gmail and outlook on the command line
    ends the script with the unsupported-provider error before any
    operation: the browser is not started. *)
Theorem main_rejects_unsupported_provider
    (s : Session) (prog instruction flag p : string)
    (rest : list string) (t : trace) :
  p <> "gmail"%string -> p <> "outlook"%string ->
  main s (prog :: instruction :: flag :: p :: rest) t
  = (Uncaught (ValueError "Unsupported provider"), [], t).
Proof.
  intros H1 H2. unfold main, bind, __init__, URLS. simpl.
  rewrite lookup_insert_ne by congruence.
  now rewrite lookup_singleton_ne by congruence.
Qed.

Lemma main_rejects_unsupported_provider_witness :
  main ok_session ["agent.py"; "hello"; "--provider"; "yahoo"]%string []
  = (Uncaught (ValueError "Unsupported provider"), [], []).
Proof.
  apply (main_rejects_unsupported_provider ok_session
           "agent.py" "hello" "--provider" "yahoo" [] []); discriminate.
Defined.

End CommandLineExtras.
